(** * Round-robin fixture generator (briscas.py): model and properties

    The development embeds [generar_fixture] of [briscas.py]: the circle
    method for a round-robin schedule, with a resting slot when the number
    of teams is odd, an optional return leg and an optional home/away
    alternation by round parity.

    Python integers are [Z]; strings are [string]; a row of the fixture is
    the record [fila]; lists of labels that the caller can observe live in
    a store of list objects, so that copying and in-place appending are
    distinguished; exceptions are values of [exn]. *)

From Stdlib Require Import ZArith List String Ascii Bool Lia Sorted DecimalString DecimalPos.
From Stdlib Require Import DecimalZ.
Import ListNotations.

Open Scope string_scope.
Open Scope list_scope.
Open Scope Z_scope.

(** ** Exceptions and the error monad *)

Inductive exn : Type :=
| ValueError (msg : string)
| IndexError.

Inductive result (A : Type) : Type :=
| Ok (a : A)
| Raise (e : exn).

Arguments Ok {A} a.
Arguments Raise {A} e.

Definition rbind {A B : Type} (c : result A) (k : A -> result B) : result B :=
  match c with
  | Ok a => k a
  | Raise e => Raise e
  end.

Notation "'let*' x ':=' c 'in' k" := (rbind c (fun x => k))
  (at level 10, x name, c at level 100, k at level 200).

Fixpoint mapM {A B : Type} (f : A -> result B) (l : list A) : result (list B) :=
  match l with
  | [] => Ok []
  | x :: l' =>
      let* y := f x in
      let* ys := mapM f l' in
      Ok (y :: ys)
  end.

(** ** Python sequence operations *)

Definition len {A : Type} (l : list A) : Z := Z.of_nat (List.length l).

(** [l[i]]: a negative index counts from the end; out of range raises. *)
Definition index {A : Type} (l : list A) (i : Z) : result A :=
  let k := if i <? 0 then i + len l else i in
  if k <? 0 then Raise IndexError
  else match nth_error l (Z.to_nat k) with
       | Some x => Ok x
       | None => Raise IndexError
       end.

Definition clamp (n i : Z) : Z :=
  if i <? 0 then Z.max (i + n) 0 else Z.min i n.

(** [l[start:stop]] with either bound possibly omitted; slicing never raises. *)
Definition slice {A : Type} (l : list A) (start stop : option Z) : list A :=
  let n := len l in
  let a := match start with Some i => clamp n i | None => 0 end in
  let b := match stop with Some j => clamp n j | None => n end in
  firstn (Z.to_nat (b - a)) (skipn (Z.to_nat a) l).

(** [range(a, b)] *)
Definition range (a b : Z) : list Z :=
  map (fun k => a + Z.of_nat k) (seq 0 (Z.to_nat (b - a))).

(** [str(i)] *)
Definition str (i : Z) : string := NilZero.string_of_int (Z.to_int i).

(** ** Rows of the fixture *)

Record fila : Type := Fila {
  ronda : Z;
  mesa : Z;
  local : string;
  visita : string;
  nota : string
}.

Definition BYE_LABEL : string := "DESCANSA".

(** ** The store of list objects *)

Definition loc : Type := nat.
Definition heap : Type := list (list string).

Definition St (A : Type) : Type := heap -> result A * heap.

Definition ret {A : Type} (a : A) : St A := fun h => (Ok a, h).

Definition raise {A : Type} (e : exn) : St A := fun h => (Raise e, h).

Definition bind {A B : Type} (c : St A) (k : A -> St B) : St B :=
  fun h =>
    match c h with
    | (Ok a, h') => k a h'
    | (Raise e, h') => (Raise e, h')
    end.

Notation "x <- c ;; k" := (bind c (fun x => k))
  (at level 61, c at next level, right associativity).
Notation "c ;;; k" := (bind c (fun _ => k))
  (at level 61, right associativity).

Definition lift {A : Type} (c : result A) : St A := fun h => (c, h).

(** Reading the object at a location. *)
Definition deref (p : loc) : St (list string) := fun h => (Ok (nth p h []), h).

(** A new list object. *)
Definition alloc (l : list string) : St loc := fun h => (Ok (List.length h), h ++ [l]).

Fixpoint update (p : loc) (f : list string -> list string) (h : heap) : heap :=
  match h, p with
  | [], _ => []
  | c :: h', O => f c :: h'
  | c :: h', S p' => c :: update p' f h'
  end.

(** [p.append(x)]: the object at [p] is changed in place. *)
Definition append (p : loc) (x : string) : St unit :=
  fun h => (Ok tt, update p (fun l => l ++ [x]) h).

(** ** generar_fixture *)

(** [[f"E{i}" for i in range(1, n + 1)]] *)
Definition nombres_por_defecto (n : Z) : list string :=
  map (fun i => String.append "E" (str i)) (range 1 (n + 1)).

(** [[(work[i], work[-(i + 1)]) for i in range(mitad)]] *)
Definition pares (work : list string) (mitad : Z) : result (list (string * string)) :=
  mapM (fun i =>
          let* a := index work i in
          let* b := index work (- (i + 1)) in
          Ok (a, b))
       (range 0 mitad).

(** The row appended for the pair [(a, b)] at round [r] and table [m]. *)
Definition fila_de_par (r m : Z) (balance_home_away : bool) (bye_label : string)
    (a b : string) : fila :=
  if (a =? bye_label)%string || (b =? bye_label)%string then
    let descansa := if (b =? bye_label)%string then a else b in
    Fila r m descansa "" "DESCANSA"
  else
    let '(a, b) := if balance_home_away && (r mod 2 =? 0) then (b, a) else (a, b) in
    Fila r m a b "".

(** The inner loop: [mesa] counts from 1, one row per pair. *)
Definition mesas (r : Z) (balance_home_away : bool) (bye_label : string)
    (ps : list (string * string)) (filas : list fila) : list fila :=
  snd (fold_left
         (fun (st : Z * list fila) (p : string * string) =>
            let '(m, filas) := st in
            let '(a, b) := p in
            (m + 1, filas ++ [fila_de_par r m balance_home_away bye_label a b]))
         ps (1, filas)).

(** The rotation that keeps the first element fixed. *)
Definition rotar (work : list string) : result (list string) :=
  let* fijo := index work 0 in
  let cola := slice work (Some 1) None in
  let* ult := index cola (-1) in
  Ok ([fijo] ++ [ult] ++ slice cola None (Some (-1))).

(** The first leg: the loop over [range(1, rondas + 1)]. *)
Fixpoint ida (rs : list Z) (mitad : Z) (balance_home_away : bool) (bye_label : string)
    (work : list string) (filas : list fila) : result (list fila) :=
  match rs with
  | [] => Ok filas
  | r :: rs' =>
      let* ps := pares work mitad in
      let filas := mesas r balance_home_away bye_label ps filas in
      let* work := rotar work in
      ida rs' mitad balance_home_away bye_label work filas
  end.

(** The row of the return leg built from a row of the first leg. *)
Definition fila_vuelta (rondas : Z) (f : fila) : fila :=
  let r2 := ronda f + rondas in
  if (nota f =? "DESCANSA")%string then Fila r2 (mesa f) (local f) "" "DESCANSA"
  else Fila r2 (mesa f) (visita f) (local f) "".

Definition vuelta (rondas : Z) (filas : list fila) : list fila :=
  map (fila_vuelta rondas) filas.

(** [filas.sort(key=lambda x: (x[0], x[1]))]: a stable sort on the key
    (round, table), tuples compared lexicographically. *)
Definition clave (f : fila) : Z * Z := (ronda f, mesa f).

Definition clave_leb (k1 k2 : Z * Z) : bool :=
  (fst k1 <? fst k2) || ((fst k1 =? fst k2) && (snd k1 <=? snd k2)).

Fixpoint insertar (f : fila) (l : list fila) : list fila :=
  match l with
  | [] => [f]
  | g :: l' => if clave_leb (clave f) (clave g) then f :: l else g :: insertar f l'
  end.

Definition ordenar (l : list fila) : list fila := fold_right insertar [] l.

Definition generar_fixture (n : Z) (names : option loc)
    (double_round balance_home_away : bool) (bye_label : string) : St (list fila) :=
  if n <? 2 then raise (ValueError "Se requieren al menos 2 equipos.") else
  distinto <- match names with
              | Some p => l <- deref p ;; ret (negb (len l =? n))
              | None => ret false
              end ;;
  if (distinto : bool) then
    raise (ValueError "Si usas nombres personalizados, deben ser exactamente n.")
  else
  equipos <- match names with
             | Some p =>
                 l <- deref p ;;
                 if negb (len l =? 0) then alloc (slice l None None)
                 else alloc (nombres_por_defecto n)
             | None => alloc (nombres_por_defecto n)
             end ;;
  let impar := n mod 2 =? 1 in
  n <- (if impar then append equipos bye_label ;;; ret (n + 1) else ret n) ;;
  let rondas := n - 1 in
  let mitad := n / 2 in
  e <- deref equipos ;;
  let work := slice e None None in
  filas <- lift (ida (range 1 (rondas + 1)) mitad balance_home_away bye_label work []) ;;
  let filas := if (double_round : bool) then filas ++ vuelta rondas filas else filas in
  ret (ordenar filas).

(** ** Output utilities

    Python strings are held as their UTF-8 bytes: the characters that the
    code below tests or inserts are ASCII, and no byte of a multi-byte
    UTF-8 sequence is ASCII, so a test on bytes is the test on characters,
    and encoding to UTF-8 leaves the bytes as they are. *)

(** The values that a row dict holds. *)
Inductive valor : Type :=
| VInt (z : Z)
| VStr (s : string).

(** A dict with string keys, read by key only. *)
Definition dict : Type := string -> option valor.

Definition dict_vacio : dict := fun _ => None.

Definition dict_con (k : string) (v : valor) (d : dict) : dict :=
  fun k' => if (k' =? k)%string then Some v else d k'.

(** The dict display [{k1: v1, k2: v2, ...}]: a later entry wins. *)
Definition dict_de (kvs : list (string * valor)) : dict :=
  fold_left (fun d kv => dict_con (fst kv) (snd kv) d) kvs dict_vacio.

(** The outcome of code whose only exception is [KeyError]. *)
Inductive intento (A : Type) : Type :=
| Hecho (a : A)
| KeyError (key : string).

Arguments Hecho {A} a.
Arguments KeyError {A} key.

Definition ibind {A B : Type} (c : intento A) (k : A -> intento B) : intento B :=
  match c with
  | Hecho a => k a
  | KeyError key => KeyError key
  end.

Notation "'let+' x ':=' c 'in' k" := (ibind c (fun x => k))
  (at level 10, x name, c at level 100, k at level 200).

(** [row[k]] *)
Definition item (row : dict) (k : string) : intento valor :=
  match row k with
  | Some v => Hecho v
  | None => KeyError k
  end.

(** [str(v)], also what an f-string and the csv writer make of a value. *)
Definition texto (v : valor) : string :=
  match v with
  | VInt z => str z
  | VStr s => s
  end.


Definition filas_a_dicts (filas : list fila) : list dict :=
  map (fun f => dict_de [("Ronda", VInt (ronda f)); ("Mesa", VInt (mesa f));
                         ("Local", VStr (local f)); ("Visita", VStr (visita f));
                         ("Nota", VStr (nota f))])
      filas.

(** *** The csv writer with the default dialect

    The delimiter is the comma and the quote character the double quote
    (code 34), which is doubled inside a quoted field; quoting is minimal
    and the line terminator is CR LF. *)

Definition comilla : ascii := "034"%char.
Definition CR : ascii := "013"%char.
Definition LF : ascii := "010"%char.
Definition CRLF : string := String CR (String LF EmptyString).

(** The characters that make the writer quote a field. *)
Definition especial (c : ascii) : bool :=
  (c =? ",")%char || (c =? comilla)%char || (c =? CR)%char || (c =? LF)%char.

Fixpoint tiene_especial (s : string) : bool :=
  match s with
  | EmptyString => false
  | String c s' => especial c || tiene_especial s'
  end.

Fixpoint doblar (s : string) : string :=
  match s with
  | EmptyString => EmptyString
  | String c s' =>
      if (c =? comilla)%char then String comilla (String comilla (doblar s'))
      else String c (doblar s')
  end.

Definition csv_campo (s : string) : string :=
  if tiene_especial s then String comilla (doblar s ++ String comilla EmptyString)%string
  else s.

(** [w.writerow(campos)]: what is written to the buffer. A record of one
    empty field is written as a pair of quotes. *)
Definition writerow (campos : list string) : string :=
  match campos with
  | [EmptyString] => String comilla (String comilla CRLF)
  | _ => (String.concat "," (map csv_campo campos) ++ CRLF)%string
  end.

(** The byte order mark that the codec [utf-8-sig] puts first. *)
Definition BOM : string :=
  String "239"%char (String "187"%char (String "191"%char EmptyString)).

(** The loop of [dicts_a_csv_bytes] over the rows, [buf] being what has
    been written. *)
Fixpoint escribir_filas (rows : list dict) (buf : string) : intento string :=
  match rows with
  | [] => Hecho buf
  | row :: rows' =>
      let+ r := item row "Ronda" in
      let+ m := item row "Mesa" in
      let+ a := item row "Local" in
      let+ b := item row "Visita" in
      let+ nota := item row "Nota" in
      escribir_filas rows'
        (buf ++ writerow [texto r; texto m; texto a; texto b; texto nota])%string
  end.

Definition dicts_a_csv_bytes (rows : list dict) : intento string :=
  let buf := writerow ["Ronda"; "Mesa"; "Local"; "Visita"; "Nota"] in
  let+ buf := escribir_filas rows buf in
  Hecho (BOM ++ buf)%string.

(** *** The printable document

    The five pieces of the template of [dicts_a_html], between its
    placeholders. *)









(** ** The summary under the table

    The two numbers of the line "Rondas totales ... Partidos por ronda" that
    the page shows after a fixture is generated. *)

Definition total_rondas (n : Z) (double_round : bool) : Z :=
  let total_rondas := if n mod 2 =? 0 then n - 1 else n in
  if double_round then total_rondas * 2 else total_rondas.

Definition partidos_por_ronda (n : Z) : Z :=
  if n mod 2 =? 0 then n / 2 else (n + 1) / 2.

(** * Vocabulary of the properties

    What the statements below are written with: counting, the order of the
    sort key, the positions of the circle method, the rows that the loops
    of [generar_fixture] build, and the conditions on the inputs. *)

(** The number of elements of [l] that satisfy [P]. *)
Definition cuenta {A : Type} (P : A -> bool) (l : list A) : nat :=
  List.length (filter P l).

(** Strict order of the sort key. *)
Definition antes (f g : fila) : Prop :=
  ronda f < ronda g \/ (ronda f = ronda g /\ mesa f < mesa g).

(** With [M = 2 * h - 1] rounds over [2 * h] positions, [sigma M k j] is the
    original position of the element found at position [j] after [k]
    rotations: position 0 stays, the others move round a circle of [M]. *)
Definition sigma (M k j : nat) : nat :=
  if (j =? 0)%nat then 0%nat
  else if (j <=? k)%nat then (M - k + j)%nat else (j - k)%nat.

(** The list that [rotar] returns on a list of two or more elements. *)
Definition rotada (w : list string) : list string :=
  match w with
  | [] => []
  | fijo :: cola =>
      fijo :: nth (List.length cola - 1) cola "" :: firstn (List.length cola - 1) cola
  end.

(** The work list after [k] rotations. *)
Definition trabajo (k : nat) (e : list string) : list string := Nat.iter k rotada e.

(** The rows appended during one round. *)
Definition filas_ronda (r : Z) (bal : bool) (bye : string) (w : list string) (mitad : nat)
  : list fila :=
  map (fun t => fila_de_par r (Z.of_nat t + 1) bal bye
                  (nth t w "") (nth (List.length w - 1 - t) w ""))
      (seq 0 mitad).

(** The rows appended over the rounds [rs], starting from the work list [w]. *)
Fixpoint ida_filas (rs : list Z) (mitad : nat) (bal : bool) (bye : string)
    (w : list string) : list fila :=
  match rs with
  | [] => []
  | r :: rs' => filas_ronda r bal bye w mitad ++ ida_filas rs' mitad bal bye (rotada w)
  end.

(** The row of round [k + 1] at table [t + 1] of the participants [e], two
    per table at [h] tables. *)
Definition fila_en (e : list string) (h : nat) (bal : bool) (bye : string)
    (k t : nat) : fila :=
  fila_de_par (Z.of_nat k + 1) (Z.of_nat t + 1) bal bye
    (nth (sigma (2 * h - 1) k t) e "")
    (nth (sigma (2 * h - 1) k (2 * h - 1 - t)) e "").

(** The rows of the first leg. *)
Definition primera_vuelta (e : list string) (h : nat) (bal : bool) (bye : string)
  : list fila :=
  flat_map (fun k => map (fila_en e h bal bye k) (seq 0 h)) (seq 0 (2 * h - 1)).

(** The rows returned: the first leg, followed by the return leg when asked. *)
Definition salida (e : list string) (h : nat) (bal : bool) (bye : string)
    (double_round : bool) : list fila :=
  if double_round then
    primera_vuelta e h bal bye ++ vuelta (Z.of_nat (2 * h - 1)) (primera_vuelta e h bal bye)
  else primera_vuelta e h bal bye.

(** The labels of the real participants: the caller's list, or the
    default names. *)
Definition etiquetas (h : heap) (n : Z) (names : option loc) : list string :=
  match names with
  | Some p => nth p h []
  | None => nombres_por_defecto n
  end.

(** Inputs that pass the two checks of [generar_fixture]. *)
Definition bien_formada (h : heap) (n : Z) (names : option loc) : Prop :=
  2 <= n /\
  match names with
  | Some p => len (nth p h []) = n
  | None => True
  end.

(** [n % 2 == 1] *)
Definition impar (n : Z) : bool := n mod 2 =? 1.

(** The participants after padding with the resting slot. *)
Definition equipos_de (h : heap) (n : Z) (names : option loc) (bye : string) : list string :=
  etiquetas h n names ++ (if impar n then [bye] else []).

(** The rounds of a single round-robin of [n] participants. *)
Definition rondas_de (n : Z) : Z := if impar n then n else n - 1.

(** The tables of each round. *)
Definition mitad_de (n : Z) : Z := if impar n then (n + 1) / 2 else n / 2.

(** The fixture of a well-formed input, as a list. *)
Definition fixture (h : heap) (n : Z) (names : option loc)
    (double_round balance_home_away : bool) (bye_label : string) : list fila :=
  salida (equipos_de h n names bye_label) (Z.to_nat (mitad_de n))
         balance_home_away bye_label double_round.

(** A row that records a rest. *)
Definition es_descanso (f : fila) : bool := (nota f =? "DESCANSA")%string.

(** [x] takes part in the match of row [f]; the empty away field of a rest
    row is no participant. *)
Definition participa (x : string) (f : fila) : bool :=
  (local f =? x)%string || (negb (es_descanso f) && (visita f =? x)%string).

(** Row [f] is the match of [x] at home against [y]. *)
Definition enfrenta (x y : string) (f : fila) : bool :=
  negb (es_descanso f) && ((local f =? x)%string && (visita f =? y)%string).

(** Row [f] is a match between [x] and [y], whoever is at home. *)
Definition juega (x y : string) (f : fila) : bool :=
  enfrenta x y f || enfrenta y x f.

(** Row [f] belongs to round [r]. *)
Definition en_ronda (r : Z) (f : fila) : bool := ronda f =? r.

(** The keys (round, table) of [T] rounds of [m] tables, in order. *)
Definition claves_esperadas (T m : Z) : list (Z * Z) :=
  list_prod (range 1 (T + 1)) (range 1 (m + 1)).

(** Keys of the rounds [s + 1 .. s + c] with [h] tables each. *)
Definition claves_desde (h s c : nat) : list (Z * Z) :=
  flat_map (fun k => map (fun t => (Z.of_nat k + 1, Z.of_nat t + 1)) (seq 0 h)) (seq s c).

(** The labels are pairwise distinct and none is the resting label. *)
Definition sin_colision (h : heap) (n : Z) (names : option loc) (bye : string) : Prop :=
  NoDup (etiquetas h n names) /\ ~ In bye (etiquetas h n names).

(** A valid input: it passes the checks and its labels do not collide. *)
Definition entrada_valida (h : heap) (n : Z) (names : option loc) (bye : string) : Prop :=
  bien_formada h n names /\ sin_colision h n names bye.

(** [generar_fixture], called in the store [h], returns the rows [filas]. *)
Definition devuelve (h : heap) (n : Z) (names : option loc)
    (double_round balance_home_away : bool) (bye_label : string) (filas : list fila) : Prop :=
  fst (generar_fixture n names double_round balance_home_away bye_label h) = Ok filas.

(** The supplied list of names has a length other than [n]. *)
Definition nombres_no_calzan (h : heap) (n : Z) (names : option loc) : Prop :=
  match names with
  | Some p => len (nth p h []) <> n
  | None => False
  end.

(** The result is a raised [ValueError]. *)
Definition es_ValueError {A : Type} (r : result A) : Prop :=
  exists msg, r = Raise (ValueError msg).

(** Row [g] of the return leg mirrors row [f] of the first leg, [R] rounds
    later: same table and note; a match has home and away swapped, a rest
    keeps its home and its empty away. *)
Definition es_espejo (R : Z) (f g : fila) : Prop :=
  ronda g = ronda f + R /\ mesa g = mesa f /\ nota g = nota f /\
  if es_descanso f then local g = local f /\ visita g = ""
  else local g = visita f /\ visita g = local f.

(** Row [f] of the balanced run against row [g] of the unbalanced run at the
    same position, the parity being that of [r0]: same round, table and
    note, the same two sides; the same orientation when [r0] is odd, the
    swapped one when [r0] is even and the row is a match. *)
Definition alterna (r0 : Z) (f g : fila) : Prop :=
  ronda f = ronda g /\ mesa f = mesa g /\ nota f = nota g /\
  ((local f = local g /\ visita f = visita g) \/
   (local f = visita g /\ visita f = local g)) /\
  (Z.odd r0 = true -> local f = local g /\ visita f = visita g) /\
  (Z.even r0 = true -> es_descanso f = false ->
   local f = visita g /\ visita f = local g).

(** The parity is that of the row's own round. *)
Definition alterna_por_ronda (f g : fila) : Prop := alterna (ronda f) f g.

(** The round of the first leg that a round comes from. *)
Definition ronda_de_ida (R r : Z) : Z := if r <=? R then r else r - R.

(** The parity is that of the round of the first leg. *)
Definition alterna_por_ronda_de_ida (R : Z) (f g : fila) : Prop :=
  alterna (ronda_de_ida R (ronda f)) f g.

(** The first participant of the list. *)
Definition primero (h : heap) (n : Z) (names : option loc) : string :=
  nth 0 (etiquetas h n names) "".

(** Row [f] is a match with [x] at home. *)
Definition es_local (x : string) (f : fila) : bool :=
  negb (es_descanso f) && (local f =? x)%string.

(** Row [f] is a match with [x] away. *)
Definition es_visita (x : string) (f : fila) : bool :=
  negb (es_descanso f) && (visita f =? x)%string.

(** The line that [dicts_a_csv_bytes] writes for the row [f]. *)
Definition linea_csv (f : fila) : string :=
  writerow [str (ronda f); str (mesa f); local f; visita f; nota f].

(** The lines of a list of rows, one after the other. *)
Fixpoint lineas_csv (filas : list fila) : string :=
  match filas with
  | [] => EmptyString
  | f :: filas' => (linea_csv f ++ lineas_csv filas')%string
  end.






(** The line of the row [f] with its fields as they are, no quoting. *)
Definition linea_llana (f : fila) : string :=
  (str (ronda f) ++ "," ++ str (mesa f) ++ "," ++ local f ++ "," ++ visita f ++ ","
   ++ nota f ++ CRLF)%string.



(** * Properties *)

(** ** Sequence operations on lists that are long enough *)

Lemma index_nth {A : Type} (l : list A) (i : nat) (d : A) :
  (i < List.length l)%nat -> index l (Z.of_nat i) = Ok (nth i l d).
Proof.
  intros Hi. unfold index, len.
  destruct (Z.of_nat i <? 0) eqn:E; [apply Z.ltb_lt in E; lia|].
  rewrite E, Nat2Z.id.
  destruct (nth_error l i) eqn:En.
  - f_equal. symmetry. now apply nth_error_nth.
  - apply nth_error_None in En. lia.
Qed.

Lemma index_neg {A : Type} (l : list A) (i : nat) (d : A) :
  (i < List.length l)%nat ->
  index l (- (Z.of_nat i + 1)) = Ok (nth (List.length l - 1 - i) l d).
Proof.
  intros Hi. unfold index, len.
  destruct (- (Z.of_nat i + 1) <? 0) eqn:E; [|apply Z.ltb_ge in E; lia].
  destruct (- (Z.of_nat i + 1) + Z.of_nat (List.length l) <? 0) eqn:E'.
  { apply Z.ltb_lt in E'. lia. }
  replace (Z.to_nat (- (Z.of_nat i + 1) + Z.of_nat (List.length l)))
    with (List.length l - 1 - i)%nat by lia.
  destruct (nth_error l (List.length l - 1 - i)) eqn:En.
  - f_equal. symmetry. now apply nth_error_nth.
  - apply nth_error_None in En. lia.
Qed.

Lemma slice_all {A : Type} (l : list A) : slice l None None = l.
Proof.
  unfold slice, len. rewrite Z.sub_0_r, Nat2Z.id. simpl.
  apply firstn_all.
Qed.

Lemma slice_tail {A : Type} (x : A) (l : list A) : slice (x :: l) (Some 1) None = l.
Proof.
  unfold slice, clamp, len. change (1 <? 0) with false. cbv iota.
  assert (Hn : Z.of_nat (List.length (x :: l)) = Z.of_nat (List.length l) + 1)
    by (cbn [List.length]; lia).
  rewrite Hn.
  replace (Z.min 1 (Z.of_nat (List.length l) + 1)) with 1 by lia.
  replace (Z.to_nat (Z.of_nat (List.length l) + 1 - 1)) with (List.length l) by lia.
  change (Z.to_nat 1) with 1%nat. cbn [skipn].
  apply firstn_all.
Qed.

Lemma slice_init {A : Type} (l : list A) :
  slice l None (Some (-1)) = firstn (List.length l - 1) l.
Proof.
  unfold slice, clamp, len. change (-1 <? 0) with true. cbv iota.
  change (Z.to_nat 0) with 0%nat. cbn [skipn].
  f_equal. lia.
Qed.

Lemma mapM_map_ok {A B C : Type} (f : B -> result C) (h : A -> B) (g : A -> C) (l : list A) :
  (forall x, In x l -> f (h x) = Ok (g x)) ->
  mapM f (map h l) = Ok (map g l).
Proof.
  induction l as [|x l IH]; intros H; simpl.
  - reflexivity.
  - rewrite (H x (or_introl eq_refl)). simpl.
    rewrite IH by (intros y Hy; apply H; now right).
    reflexivity.
Qed.

(** ** Counting rows *)

Lemma cuenta_app {A : Type} (P : A -> bool) (l1 l2 : list A) :
  cuenta P (l1 ++ l2) = (cuenta P l1 + cuenta P l2)%nat.
Proof. unfold cuenta. now rewrite filter_app, length_app. Qed.

Lemma cuenta_ext_in {A : Type} (P Q : A -> bool) (l : list A) :
  (forall x, In x l -> P x = Q x) -> cuenta P l = cuenta Q l.
Proof.
  unfold cuenta. induction l as [|a l IH]; intros H; simpl; [reflexivity|].
  rewrite (H a (or_introl eq_refl)).
  destruct (Q a); simpl; rewrite IH; auto; intros; apply H; now right.
Qed.

Lemma cuenta_map {A B : Type} (P : B -> bool) (f : A -> B) (l : list A) :
  cuenta P (map f l) = cuenta (fun x => P (f x)) l.
Proof.
  unfold cuenta. induction l as [|a l IH]; simpl; [reflexivity|].
  destruct (P (f a)); simpl; now rewrite IH.
Qed.

Lemma cuenta_cero {A : Type} (P : A -> bool) (l : list A) :
  (forall x, In x l -> P x = false) -> cuenta P l = 0%nat.
Proof.
  intros H. rewrite (cuenta_ext_in P (fun _ => false) l H).
  unfold cuenta. clear H. induction l; simpl; auto.
Qed.

Lemma cuenta_todos {A : Type} (P : A -> bool) (l : list A) :
  (forall x, In x l -> P x = true) -> cuenta P l = List.length l.
Proof.
  intros H. rewrite (cuenta_ext_in P (fun _ => true) l H).
  unfold cuenta. clear H. induction l; simpl; auto.
Qed.

Lemma cuenta_disyuncion {A : Type} (P Q : A -> bool) (l : list A) :
  (forall x, In x l -> P x = true -> Q x = false) ->
  cuenta (fun x => P x || Q x) l = (cuenta P l + cuenta Q l)%nat.
Proof.
  unfold cuenta. induction l as [|a l IH]; intros H; simpl; [reflexivity|].
  specialize (IH (fun x Hx => H x (or_intror Hx))).
  pose proof (H a (or_introl eq_refl)) as Ha.
  destruct (P a) eqn:EP; simpl.
  - rewrite (Ha eq_refl). simpl. now rewrite IH.
  - destruct (Q a); simpl; rewrite IH; lia.
Qed.

(** Exactly one element of a list with pairwise distinct keys satisfies [P]
    when some element does and all that do share its key. *)
Lemma cuenta_uno {A K : Type} (key : A -> K) (P : A -> bool) (l : list A) (x0 : A) :
  NoDup (map key l) ->
  In x0 l -> P x0 = true ->
  (forall y, In y l -> P y = true -> key y = key x0) ->
  cuenta P l = 1%nat.
Proof.
  induction l as [|a l IH]; intros Hnd Hin HP Huniq; [contradiction|].
  simpl in Hnd. apply NoDup_cons_iff in Hnd as [Hna Hnd].
  change (a :: l) with ([a] ++ l). rewrite cuenta_app.
  destruct Hin as [-> | Hin].
  - rewrite (cuenta_cero P l).
    + unfold cuenta. simpl. now rewrite HP.
    + intros y Hy. destruct (P y) eqn:EP; [|reflexivity].
      exfalso. apply Hna. rewrite <- (Huniq y (or_intror Hy) EP).
      now apply in_map.
  - assert (Ha : P a = false).
    { destruct (P a) eqn:EP; [|reflexivity].
      exfalso. apply Hna. rewrite (Huniq a (or_introl eq_refl) EP).
      now apply in_map. }
    unfold cuenta at 1. simpl. rewrite Ha. simpl.
    apply IH; auto. intros y Hy. apply Huniq. now right.
Qed.

(** ** Sorted lists of rows *)

Lemma antes_clave_leb f g : antes f g -> clave_leb (clave f) (clave g) = true.
Proof.
  unfold antes, clave_leb, clave. simpl. intros [H | [H1 H2]].
  - apply Z.ltb_lt in H. now rewrite H.
  - apply Z.eqb_eq in H1. rewrite H1.
    apply Z.lt_le_incl, Z.leb_le in H2. rewrite H2.
    apply orb_true_r.
Qed.

Lemma antes_distinta f g : antes f g -> clave f <> clave g.
Proof.
  unfold antes, clave. intros H E. injection E as E1 E2. lia.
Qed.

Lemma ordenar_ordenada l : StronglySorted antes l -> ordenar l = l.
Proof.
  induction 1 as [|a l Hs IH Hall]; simpl; [reflexivity|].
  rewrite IH. destruct l as [|g l']; [reflexivity|].
  simpl. inversion Hall as [|? ? Hag _]; subst.
  now rewrite (antes_clave_leb _ _ Hag).
Qed.

Lemma ordenada_claves_distintas l : StronglySorted antes l -> NoDup (map clave l).
Proof.
  induction 1 as [|a l Hs IH Hall]; simpl; constructor; auto.
  intros Hin. apply in_map_iff in Hin as (g & Hk & Hg).
  rewrite Forall_forall in Hall.
  exact (antes_distinta _ _ (Hall g Hg) (eq_sym Hk)).
Qed.

Lemma ordenada_app {A : Type} (R : A -> A -> Prop) (l1 l2 : list A) :
  StronglySorted R l1 -> StronglySorted R l2 ->
  (forall x y, In x l1 -> In y l2 -> R x y) ->
  StronglySorted R (l1 ++ l2).
Proof.
  induction 1 as [|a l Hs IH Hall]; intros H2 Hx; simpl; [assumption|].
  constructor.
  - apply IH; auto. intros x y Hx1 Hy. apply Hx; auto. now right.
  - apply Forall_app. split; [assumption|].
    apply Forall_forall. intros y Hy. apply Hx; auto. now left.
Qed.

Lemma ordenada_map_seq {A : Type} (R : A -> A -> Prop) (f : nat -> A) (k s : nat) :
  (forall i j, (s <= i)%nat -> (i < j)%nat -> (j < s + k)%nat -> R (f i) (f j)) ->
  StronglySorted R (map f (seq s k)).
Proof.
  revert s. induction k as [|k IH]; intros s H; simpl; constructor.
  - apply IH. intros i j Hi Hij Hj. apply H; lia.
  - apply Forall_forall. intros y Hy.
    apply in_map_iff in Hy as (j & <- & Hj). apply in_seq in Hj.
    apply H; lia.
Qed.

Lemma ordenada_flat_map_seq {A : Type} (R : A -> A -> Prop) (g : nat -> list A) (k s : nat) :
  (forall i, (s <= i)%nat -> (i < s + k)%nat -> StronglySorted R (g i)) ->
  (forall i j x y, (s <= i)%nat -> (i < j)%nat -> (j < s + k)%nat ->
                   In x (g i) -> In y (g j) -> R x y) ->
  StronglySorted R (flat_map g (seq s k)).
Proof.
  revert s. induction k as [|k IH]; intros s H1 H2; simpl; [constructor|].
  apply ordenada_app.
  - apply H1; lia.
  - apply IH.
    + intros i Hi Hi'. apply H1; lia.
    + intros i j x y Hi Hij Hj. apply H2; lia.
  - intros x y Hx Hy. apply in_flat_map in Hy as (j & Hj & Hy).
    apply in_seq in Hj. apply (H2 s j); auto; lia.
Qed.

Lemma ordenada_map {A : Type} (R : A -> A -> Prop) (f : A -> A) (l : list A) :
  (forall x y, R x y -> R (f x) (f y)) ->
  StronglySorted R l -> StronglySorted R (map f l).
Proof.
  intros Hf. induction 1 as [|a l Hs IH Hall]; simpl; constructor; auto.
  apply Forall_forall. intros y Hy. apply in_map_iff in Hy as (x & <- & Hx).
  rewrite Forall_forall in Hall. auto.
Qed.

(** ** The circle method on positions *)

Ltac casos_sigma :=
  unfold sigma in *;
  repeat match goal with
    | H : context [Nat.eqb ?a ?b] |- _ => destruct (Nat.eqb_spec a b)
    | H : context [Nat.leb ?a ?b] |- _ => destruct (Nat.leb_spec a b)
    | |- context [Nat.eqb ?a ?b] => destruct (Nat.eqb_spec a b)
    | |- context [Nat.leb ?a ?b] => destruct (Nat.leb_spec a b)
    end.

Section Circulo.
Variable h : nat.
Hypothesis Hh : (1 <= h)%nat.
Let M := (2 * h - 1)%nat.

Lemma sigma_cota k j : (k <= M)%nat -> (j <= M)%nat -> (sigma M k j <= M)%nat.
Proof. subst M. intros. casos_sigma; lia. Qed.

Lemma sigma_iny k j j' :
  (k < M)%nat -> (j <= M)%nat -> (j' <= M)%nat ->
  sigma M k j = sigma M k j' -> j = j'.
Proof. subst M. intros. casos_sigma; lia. Qed.

Lemma sigma_paso k j :
  (k < M)%nat -> (j <= M)%nat ->
  sigma M k (if (j =? 0)%nat then 0 else if (j =? 1)%nat then M else j - 1)%nat
  = sigma M (S k) j.
Proof. subst M. intros. casos_sigma; lia. Qed.

(** The same two positions are paired at one round and table only. *)
Lemma sigma_encuentro_unico k k' t t' :
  (k < M)%nat -> (k' < M)%nat -> (t < h)%nat -> (t' < h)%nat ->
  (sigma M k t = sigma M k' t' /\ sigma M k (M - t) = sigma M k' (M - t')) \/
  (sigma M k t = sigma M k' (M - t') /\ sigma M k (M - t) = sigma M k' t') ->
  k = k' /\ t = t'.
Proof. subst M. intros Hk Hk' Ht Ht' H. casos_sigma; lia. Qed.

(** Every position sits at some table of every round. *)
Lemma sigma_sobre k i :
  (k < M)%nat -> (i <= M)%nat ->
  exists t, (t < h)%nat /\ (sigma M k t = i \/ sigma M k (M - t) = i).
Proof.
  subst M. intros Hk Hi.
  pose (p := if (i =? 0)%nat then 0%nat
             else if (i + k <=? 2 * h - 1)%nat then (i + k)%nat
                  else (i + k - (2 * h - 1))%nat).
  exists (Nat.min p (2 * h - 1 - p)).
  subst p. split.
  - destruct (Nat.eqb_spec i 0); [lia|].
    destruct (Nat.leb_spec (i + k) (2 * h - 1)); lia.
  - destruct (Nat.eqb_spec i 0); [left; casos_sigma; lia|].
    destruct (Nat.leb_spec (i + k) (2 * h - 1)).
    + destruct (Nat.le_gt_cases (i + k) (2 * h - 1 - (i + k))).
      * left. rewrite Nat.min_l by lia. casos_sigma; lia.
      * right. rewrite Nat.min_r by lia. casos_sigma; lia.
    + destruct (Nat.le_gt_cases (i + k - (2 * h - 1))
                  (2 * h - 1 - (i + k - (2 * h - 1)))).
      * left. rewrite Nat.min_l by lia. casos_sigma; lia.
      * right. rewrite Nat.min_r by lia. casos_sigma; lia.
Qed.

Lemma encuentro_en_posicion k p i j :
  (p <= M)%nat -> sigma M k p = i -> sigma M k (M - p) = j ->
  exists t, (t < h)%nat /\
    ((sigma M k t = i /\ sigma M k (M - t) = j) \/
     (sigma M k t = j /\ sigma M k (M - t) = i)).
Proof.
  subst M. intros Hp Hi Hj.
  destruct (Nat.le_gt_cases p (2 * h - 1 - p)).
  - exists p. split; [lia|]. left. now split.
  - exists (2 * h - 1 - p)%nat. split; [lia|]. right.
    replace (2 * h - 1 - (2 * h - 1 - p))%nat with p by lia. now split.
Qed.

Lemma sigma_encuentro_ord i j :
  (i < j)%nat -> (j <= M)%nat ->
  exists k t, (k < M)%nat /\ (t < h)%nat /\
    ((sigma M k t = i /\ sigma M k (M - t) = j) \/
     (sigma M k t = j /\ sigma M k (M - t) = i)).
Proof.
  intros Hij Hj.
  assert (Hcasos :
    exists k p, (k < M)%nat /\ (p <= M)%nat /\
                sigma M k p = i /\ sigma M k (M - p) = j).
  { subst M. destruct (Nat.eq_dec i 0) as [-> | Hi0].
    - exists (2 * h - 1 - j)%nat, 0%nat. repeat split; try lia; casos_sigma; lia.
    - assert (Hq : exists q r, (i + j = 2 * q + r)%nat /\ (r < 2)%nat).
      { exists ((i + j) / 2)%nat, ((i + j) mod 2)%nat. split.
        - apply Nat.div_mod_eq.
        - apply Nat.mod_upper_bound. discriminate. }
      destruct Hq as (q & r & Hq & Hr).
      destruct (Nat.eq_dec r 0) as [-> | Hr1].
      + exists (2 * h - 1 - q)%nat, (i + (2 * h - 1 - q))%nat.
        repeat split; try lia; casos_sigma; lia.
      + destruct (Nat.le_gt_cases (i + j) (2 * h - 1)).
        * exists (h - 1 - q)%nat, (i + (h - 1 - q))%nat.
          repeat split; try lia; casos_sigma; lia.
        * exists (3 * h - 2 - q)%nat, (i + (3 * h - 2 - q) - (2 * h - 1))%nat.
          repeat split; try lia; casos_sigma; lia. }
  destruct Hcasos as (k & p & Hk & Hp & Hi & Hj').
  destruct (encuentro_en_posicion k p i j Hp Hi Hj') as (t & Ht & Hd).
  exists k, t. auto.
Qed.

(** Any two distinct positions are paired at some round and table. *)
Lemma sigma_encuentro i j :
  i <> j -> (i <= M)%nat -> (j <= M)%nat ->
  exists k t, (k < M)%nat /\ (t < h)%nat /\
    ((sigma M k t = i /\ sigma M k (M - t) = j) \/
     (sigma M k t = j /\ sigma M k (M - t) = i)).
Proof.
  intros Hne Hi Hj.
  destruct (Nat.lt_total i j) as [Hlt | [Heq | Hgt]]; [|contradiction|].
  - now apply sigma_encuentro_ord.
  - destruct (sigma_encuentro_ord j i Hgt Hi) as (k & t & Hk & Ht & Hd).
    exists k, t. repeat split; auto. tauto.
Qed.
End Circulo.

(** ** The first leg as a list of rows *)

Lemma rotar_ok w : (2 <= List.length w)%nat -> rotar w = Ok (rotada w).
Proof.
  destruct w as [|x c]; simpl List.length; intros Hl; [lia|].
  unfold rotar.
  change 0 with (Z.of_nat 0).
  rewrite (index_nth (x :: c) 0 "") by (simpl; lia).
  cbn [rbind nth]. rewrite slice_tail.
  change (-1) with (- (Z.of_nat 0 + 1)).
  rewrite (index_neg c 0 "") by lia.
  cbn [rbind]. rewrite slice_init.
  rewrite Nat.sub_0_r. reflexivity.
Qed.

Lemma length_rotada w : (2 <= List.length w)%nat -> List.length (rotada w) = List.length w.
Proof.
  destruct w as [|x c]; simpl; intros Hl; [lia|].
  rewrite length_firstn. lia.
Qed.

Lemma nth_rotada w j :
  (2 <= List.length w)%nat -> (j < List.length w)%nat ->
  nth j (rotada w) "" =
  nth (if (j =? 0)%nat then 0 else if (j =? 1)%nat then List.length w - 1 else j - 1)%nat w "".
Proof.
  destruct w as [|x c]; simpl List.length; intros Hl Hj; [lia|].
  destruct j as [|[|j]]; simpl.
  - reflexivity.
  - rewrite Nat.sub_0_r. destruct (List.length c) eqn:E; [lia|].
    simpl. now rewrite Nat.sub_0_r.
  - rewrite nth_firstn.
    destruct (Nat.ltb_spec j (List.length c - 1)); [reflexivity|lia].
Qed.

Lemma range_seq (a : Z) (k : nat) :
  range a (a + Z.of_nat k) = map (fun i => a + Z.of_nat i) (seq 0 k).
Proof.
  unfold range. replace (a + Z.of_nat k - a) with (Z.of_nat k) by lia.
  now rewrite Nat2Z.id.
Qed.

Lemma pares_ok w (mitad : nat) :
  (mitad <= List.length w)%nat ->
  pares w (Z.of_nat mitad) =
  Ok (map (fun t => (nth t w "", nth (List.length w - 1 - t) w "")) (seq 0 mitad)).
Proof.
  intros Hm. unfold pares.
  change (Z.of_nat mitad) with (0 + Z.of_nat mitad). rewrite range_seq.
  apply mapM_map_ok. intros t Ht. apply in_seq in Ht.
  rewrite Z.add_0_l.
  rewrite (index_nth w t "") by lia. cbn [rbind].
  rewrite (index_neg w t "") by lia. reflexivity.
Qed.

Lemma mesas_ok r bal bye (g : nat -> string * string) (k : nat) filas :
  mesas r bal bye (map g (seq 0 k)) filas =
  filas ++ map (fun t => fila_de_par r (Z.of_nat t + 1) bal bye (fst (g t)) (snd (g t)))
               (seq 0 k).
Proof.
  unfold mesas.
  set (F := fun (st : Z * list fila) (p : string * string) =>
              let '(m, filas) := st in
              let '(a, b) := p in
              (m + 1, filas ++ [fila_de_par r m bal bye a b])).
  assert (H : forall k s fs,
             fold_left F (map g (seq s k)) (Z.of_nat s + 1, fs) =
             (Z.of_nat (s + k) + 1,
              fs ++ map (fun t => fila_de_par r (Z.of_nat t + 1) bal bye
                                    (fst (g t)) (snd (g t))) (seq s k))).
  { clear k filas. induction k as [|k IH]; intros s fs; simpl.
    - now rewrite Nat.add_0_r, app_nil_r.
    - destruct (g s) as [a b] eqn:E. simpl.
      replace (Z.of_nat s + 1 + 1) with (Z.of_nat (S s) + 1) by lia.
      rewrite IH. rewrite <- app_assoc. simpl.
      f_equal. lia. }
  change 1 with (Z.of_nat 0 + 1) at 1. now rewrite H.
Qed.

Lemma ida_ok rs (mitad : nat) bal bye :
  forall w filas,
    (2 <= List.length w)%nat -> (mitad <= List.length w)%nat ->
    ida rs (Z.of_nat mitad) bal bye w filas = Ok (filas ++ ida_filas rs mitad bal bye w).
Proof.
  induction rs as [|r rs IH]; intros w filas H2 Hm; simpl.
  - now rewrite app_nil_r.
  - rewrite pares_ok by assumption. cbn [rbind].
    rewrite rotar_ok by assumption. cbn [rbind].
    rewrite IH by (rewrite length_rotada; assumption).
    rewrite mesas_ok. cbn [fst snd]. now rewrite <- app_assoc.
Qed.

(** Facts on a single row. *)

Lemma ronda_fila_de_par r m bal bye a b : ronda (fila_de_par r m bal bye a b) = r.
Proof.
  unfold fila_de_par.
  destruct ((a =? bye)%string || (b =? bye)%string); [reflexivity|].
  now destruct (bal && (r mod 2 =? 0)).
Qed.

Lemma mesa_fila_de_par r m bal bye a b : mesa (fila_de_par r m bal bye a b) = m.
Proof.
  unfold fila_de_par.
  destruct ((a =? bye)%string || (b =? bye)%string); [reflexivity|].
  now destruct (bal && (r mod 2 =? 0)).
Qed.

Lemma ronda_fila_vuelta R f : ronda (fila_vuelta R f) = ronda f + R.
Proof. unfold fila_vuelta. now destruct (nota f =? "DESCANSA")%string. Qed.

Lemma mesa_fila_vuelta R f : mesa (fila_vuelta R f) = mesa f.
Proof. unfold fila_vuelta. now destruct (nota f =? "DESCANSA")%string. Qed.

Section Ida.
Variable e : list string.
Variable h : nat.
Variables (bal : bool) (bye : string).
Hypothesis Hh : (1 <= h)%nat.
Hypothesis He : List.length e = (2 * h)%nat.
Let M := (2 * h - 1)%nat.

Lemma length_trabajo k : List.length (trabajo k e) = (2 * h)%nat.
Proof.
  induction k as [|k IH]; simpl; [assumption|].
  rewrite length_rotada; [assumption|]. fold (trabajo k e). lia.
Qed.

Lemma nth_trabajo k j :
  (k <= M)%nat -> (j <= M)%nat ->
  nth j (trabajo k e) "" = nth (sigma M k j) e "".
Proof.
  revert j. induction k as [|k IH]; intros j Hk Hj.
  - simpl. f_equal. subst M. casos_sigma; lia.
  - change (trabajo (S k) e) with (rotada (trabajo k e)).
    rewrite nth_rotada by (rewrite length_trabajo; subst M; lia).
    rewrite length_trabajo.
    replace (2 * h - 1)%nat with M by reflexivity.
    rewrite IH.
    + f_equal. apply sigma_paso; auto.
    + lia.
    + destruct (j =? 0)%nat; [lia|]. destruct (j =? 1)%nat; lia.
Qed.

Lemma filas_ronda_trabajo k :
  (k < M)%nat ->
  filas_ronda (Z.of_nat k + 1) bal bye (trabajo k e) h = map (fila_en e h bal bye k) (seq 0 h).
Proof.
  intros Hk. unfold filas_ronda. apply map_ext_in. intros t Ht.
  apply in_seq in Ht. unfold fila_en.
  rewrite length_trabajo.
  rewrite !nth_trabajo by (subst M; lia).
  reflexivity.
Qed.

Lemma ida_filas_rondas :
  ida_filas (range 1 (Z.of_nat M + 1)) h bal bye e = (primera_vuelta e h bal bye).
Proof.
  rewrite Z.add_comm, range_seq. unfold primera_vuelta.
  assert (H : forall c s,
             (s + c <= M)%nat ->
             ida_filas (map (fun i => 1 + Z.of_nat i) (seq s c)) h bal bye (trabajo s e) =
             flat_map (fun k => map (fila_en e h bal bye k) (seq 0 h)) (seq s c)).
  { induction c as [|c IH]; intros s Hs; [reflexivity|].
    cbn [seq map ida_filas flat_map].
    change (rotada (trabajo s e)) with (trabajo (S s) e).
    rewrite IH by lia.
    replace (1 + Z.of_nat s) with (Z.of_nat s + 1) by lia.
    rewrite filas_ronda_trabajo by lia. reflexivity. }
  apply (H M 0%nat). lia.
Qed.

Lemma ida_primera_vuelta :
  ida (range 1 (Z.of_nat M + 1)) (Z.of_nat h) bal bye e [] = Ok (primera_vuelta e h bal bye).
Proof.
  rewrite ida_ok by lia. now rewrite ida_filas_rondas.
Qed.

Lemma en_primera_vuelta f :
  In f (primera_vuelta e h bal bye) <->
  exists k t, (k < M)%nat /\ (t < h)%nat /\ f = fila_en e h bal bye k t.
Proof.
  unfold primera_vuelta. rewrite in_flat_map. split.
  - intros (k & Hk & Hf). apply in_seq in Hk.
    apply in_map_iff in Hf as (t & <- & Ht). apply in_seq in Ht.
    exists k, t. repeat split; lia.
  - intros (k & t & Hk & Ht & ->). exists k. split.
    + apply in_seq. lia.
    + apply in_map. apply in_seq. lia.
Qed.

Lemma ronda_fila_en k t : ronda (fila_en e h bal bye k t) = Z.of_nat k + 1.
Proof. apply ronda_fila_de_par. Qed.

Lemma mesa_fila_en k t : mesa (fila_en e h bal bye k t) = Z.of_nat t + 1.
Proof. apply mesa_fila_de_par. Qed.

Lemma primera_vuelta_ordenada : StronglySorted antes (primera_vuelta e h bal bye).
Proof.
  unfold primera_vuelta. apply ordenada_flat_map_seq.
  - intros k _ _. apply ordenada_map_seq. intros i j _ Hij _.
    right. rewrite !ronda_fila_en, !mesa_fila_en. lia.
  - intros i j x y _ Hij _ Hx Hy.
    apply in_map_iff in Hx as (t & <- & _).
    apply in_map_iff in Hy as (t' & <- & _).
    left. rewrite !ronda_fila_en. lia.
Qed.

Lemma antes_fila_vuelta R f g : antes f g -> antes (fila_vuelta R f) (fila_vuelta R g).
Proof.
  unfold antes. rewrite !ronda_fila_vuelta, !mesa_fila_vuelta. lia.
Qed.

Lemma salida_ordenada dr : StronglySorted antes (salida e h bal bye dr).
Proof.
  destruct dr; simpl; [|apply primera_vuelta_ordenada].
  apply ordenada_app.
  - apply primera_vuelta_ordenada.
  - apply ordenada_map; [apply antes_fila_vuelta | apply primera_vuelta_ordenada].
  - intros x y Hx Hy. apply en_primera_vuelta in Hx as (k & t & Hk & Ht & ->).
    apply in_map_iff in Hy as (g & <- & Hg).
    apply en_primera_vuelta in Hg as (k' & t' & Hk' & Ht' & ->).
    left. rewrite ronda_fila_vuelta, !ronda_fila_en. lia.
Qed.

Lemma salida_claves_distintas dr : NoDup (map clave (salida e h bal bye dr)).
Proof. apply ordenada_claves_distintas, salida_ordenada. Qed.

Lemma en_salida dr f :
  In f (salida e h bal bye dr) <->
  In f (primera_vuelta e h bal bye) \/
  (dr = true /\ exists g, In g (primera_vuelta e h bal bye) /\ f = fila_vuelta (Z.of_nat M) g).
Proof.
  destruct dr; simpl.
  - rewrite in_app_iff. unfold vuelta. rewrite in_map_iff. split.
    + intros [H | (g & <- & Hg)]; [now left|]. right. split; [reflexivity|].
      now exists g.
    + intros [H | (_ & g & Hg & ->)]; [now left|]. right. now exists g.
  - split; [now left|]. intros [H | (H & _)]; [assumption|discriminate].
Qed.
End Ida.

(** ** Running [generar_fixture] *)

Lemma len_nombres_por_defecto n : 0 <= n -> len (nombres_por_defecto n) = n.
Proof.
  intros Hn. unfold len, nombres_por_defecto, range.
  rewrite !length_map, length_seq. lia.
Qed.

Lemma len_etiquetas h n names : bien_formada h n names -> len (etiquetas h n names) = n.
Proof.
  intros [Hn Hl]. destruct names as [p|]; simpl; [assumption|].
  apply len_nombres_por_defecto. lia.
Qed.

Lemma update_nuevo (h : heap) (l : list string) f :
  update (List.length h) f (h ++ [l]) = h ++ [f l].
Proof. induction h as [|c h IH]; simpl; [reflexivity|]. now rewrite IH. Qed.

Lemma nth_nuevo (h : heap) (l : list string) : nth (List.length h) (h ++ [l]) [] = l.
Proof. rewrite app_nth2 by lia. now rewrite Nat.sub_diag. Qed.

Lemma mitad_rondas n :
  2 <= n ->
  1 <= mitad_de n /\ rondas_de n = 2 * mitad_de n - 1 /\
  n + (if impar n then 1 else 0) = 2 * mitad_de n.
Proof.
  intros Hn. unfold mitad_de, rondas_de, impar.
  destruct (Z.eqb_spec (n mod 2) 1); Z.div_mod_to_equations; lia.
Qed.

Lemma length_equipos_de h n names bye :
  bien_formada h n names ->
  List.length (equipos_de h n names bye) = (2 * Z.to_nat (mitad_de n))%nat.
Proof.
  intros Hbf. pose proof (len_etiquetas h n names Hbf) as Hl.
  destruct Hbf as [Hn _]. pose proof (mitad_rondas n Hn) as (H1 & _ & H2).
  unfold equipos_de, len in *. rewrite length_app.
  destruct (impar n); simpl List.length; lia.
Qed.

Lemma equipos_copia h n names :
  bien_formada h n names ->
  (match names with
   | Some p =>
       l <- deref p ;;
       if negb (len l =? 0) then alloc (slice l None None)
       else alloc (nombres_por_defecto n)
   | None => alloc (nombres_por_defecto n)
   end) h = (Ok (List.length h), h ++ [etiquetas h n names]).
Proof.
  intros [Hn Hl]. destruct names as [p|]; simpl; [|reflexivity].
  unfold bind, deref. rewrite Hl.
  destruct (Z.eqb_spec n 0); [lia|]. simpl. unfold alloc.
  now rewrite slice_all.
Qed.

Theorem generar_fixture_corre h n names dr bal bye :
  bien_formada h n names ->
  generar_fixture n names dr bal bye h =
  (Ok (fixture h n names dr bal bye), h ++ [equipos_de h n names bye]).
Proof.
  intros Hbf. pose proof Hbf as [Hn Hl].
  pose proof (mitad_rondas n Hn) as (Hm1 & Hr & Hn2).
  pose proof (length_equipos_de h n names bye Hbf) as Hlen.
  unfold generar_fixture.
  destruct (Z.ltb_spec n 2); [lia|].
  unfold bind at 1.
  assert (Hd : (match names with
                | Some p => l <- deref p ;; ret (negb (len l =? n))
                | None => ret false
                end) h = (Ok false, h)).
  { destruct names as [p|]; [|reflexivity].
    unfold bind, deref, ret. rewrite Hl, Z.eqb_refl. reflexivity. }
  rewrite Hd. cbv iota beta.
  unfold bind at 1. rewrite (equipos_copia h n names Hbf).
  fold (impar n). unfold bind at 1.
  assert (Hp : (if impar n then append (List.length h) bye ;;; ret (n + 1) else ret n)
                 (h ++ [etiquetas h n names]) =
               (Ok (2 * mitad_de n), h ++ [equipos_de h n names bye])).
  { unfold equipos_de. destruct (impar n).
    - unfold bind, append, ret. rewrite update_nuevo. f_equal. f_equal. lia.
    - unfold ret. rewrite app_nil_r. f_equal. f_equal. lia. }
  rewrite Hp.
  unfold bind at 1, deref. rewrite nth_nuevo, slice_all.
  unfold bind, lift, ret.
  replace (2 * mitad_de n / 2) with (Z.of_nat (Z.to_nat (mitad_de n)))
    by (rewrite Z.mul_comm, Z.div_mul; lia).
  replace (2 * mitad_de n - 1 + 1) with (Z.of_nat (2 * Z.to_nat (mitad_de n) - 1) + 1) by lia.
  rewrite (ida_primera_vuelta _ _ bal bye) by (assumption || lia).
  replace (2 * mitad_de n - 1) with (Z.of_nat (2 * Z.to_nat (mitad_de n) - 1)) by lia.
  fold (vuelta (Z.of_nat (2 * Z.to_nat (mitad_de n) - 1))
          (primera_vuelta (equipos_de h n names bye) (Z.to_nat (mitad_de n)) bal bye)).
  change (if dr
          then primera_vuelta (equipos_de h n names bye) (Z.to_nat (mitad_de n)) bal bye ++
               vuelta (Z.of_nat (2 * Z.to_nat (mitad_de n) - 1))
                 (primera_vuelta (equipos_de h n names bye) (Z.to_nat (mitad_de n)) bal bye)
          else primera_vuelta (equipos_de h n names bye) (Z.to_nat (mitad_de n)) bal bye)
    with (fixture h n names dr bal bye).
  rewrite ordenar_ordenada; [reflexivity|].
  apply salida_ordenada; [lia | assumption].
Qed.

(** ** Reading the rows *)

Lemma fila_de_par_casos r m bal bye a b :
  ((a = bye \/ b = bye) /\
   fila_de_par r m bal bye a b =
   Fila r m (if (b =? bye)%string then a else b) "" "DESCANSA") \/
  (a <> bye /\ b <> bye /\
   fila_de_par r m bal bye a b =
   if bal && (r mod 2 =? 0) then Fila r m b a "" else Fila r m a b "").
Proof.
  unfold fila_de_par.
  destruct (String.eqb_spec a bye) as [Ha | Ha];
    destruct (String.eqb_spec b bye) as [Hb | Hb]; simpl; auto.
  right. repeat split; auto. now destruct (bal && (r mod 2 =? 0)).
Qed.

Lemma nota_fila_de_par r m bal bye a b :
  (nota (fila_de_par r m bal bye a b) = "" /\ a <> bye /\ b <> bye) \/
  (nota (fila_de_par r m bal bye a b) = "DESCANSA" /\
   visita (fila_de_par r m bal bye a b) = "" /\ (a = bye \/ b = bye)).
Proof.
  destruct (fila_de_par_casos r m bal bye a b) as [[H ->] | (Ha & Hb & ->)].
  - right. auto.
  - left. destruct (bal && (r mod 2 =? 0)); auto.
Qed.

Lemma es_descanso_fila_vuelta R f : es_descanso (fila_vuelta R f) = es_descanso f.
Proof.
  unfold es_descanso, fila_vuelta.
  destruct (nota f =? "DESCANSA")%string eqn:E; reflexivity.
Qed.

Lemma participa_fila_vuelta R x f : participa x (fila_vuelta R f) = participa x f.
Proof.
  unfold participa. rewrite es_descanso_fila_vuelta.
  unfold es_descanso, fila_vuelta.
  destruct (nota f =? "DESCANSA")%string eqn:E; simpl; [reflexivity|].
  apply orb_comm.
Qed.

Lemma enfrenta_fila_vuelta R x y f : enfrenta x y (fila_vuelta R f) = enfrenta y x f.
Proof.
  unfold enfrenta. rewrite es_descanso_fila_vuelta.
  unfold es_descanso, fila_vuelta.
  destruct (nota f =? "DESCANSA")%string eqn:E; simpl; [reflexivity|].
  apply andb_comm.
Qed.

Lemma juega_fila_vuelta R x y f : juega x y (fila_vuelta R f) = juega x y f.
Proof. unfold juega. rewrite !enfrenta_fila_vuelta. apply orb_comm. Qed.

Lemma enfrenta_exclusivo x y f : x <> y -> enfrenta x y f = true -> enfrenta y x f = false.
Proof.
  unfold enfrenta. intros Hxy H.
  apply andb_true_iff in H as [_ H]. apply andb_true_iff in H as [H _].
  apply String.eqb_eq in H.
  destruct (String.eqb_spec (local f) y) as [Hy | Hy]; [congruence|].
  simpl. apply andb_false_r.
Qed.

Lemma participa_descanso x r m c : participa x (Fila r m c "" "DESCANSA") = (c =? x)%string.
Proof. unfold participa, es_descanso. simpl. apply orb_false_r. Qed.

Lemma participa_partido x r m a b :
  participa x (Fila r m a b "") = ((a =? x)%string || (b =? x)%string).
Proof. reflexivity. Qed.

Lemma enfrenta_partido x y r m a b :
  enfrenta x y (Fila r m a b "") = ((a =? x)%string && (b =? y)%string).
Proof. reflexivity. Qed.

(** ** The schedule of distinct labels

    [e] holds [nr] real participants with pairwise distinct labels, none of
    them the resting label, followed by the resting slot when [nr] is odd. *)

Section Calendario.
Variable e : list string.
Variable h : nat.
Variables (bal : bool) (bye : string).
Variable nr : nat.
Hypothesis Hh : (1 <= h)%nat.
Hypothesis He : List.length e = (2 * h)%nat.
Hypothesis Hnd : NoDup e.
Hypothesis Hnr : (2 * h - 1 <= nr)%nat.
Hypothesis Hbye : forall i, (i < 2 * h)%nat -> (nth i e "" = bye <-> (nr <= i)%nat).
Let M := (2 * h - 1)%nat.
Let pv := primera_vuelta e h bal bye.
Let fl := fila_en e h bal bye.

Lemma nth_iny i j : (i <= M)%nat -> (j <= M)%nat -> nth i e "" = nth j e "" -> i = j.
Proof.
  intros Hi Hj. apply (proj1 (NoDup_nth e "") Hnd); subst M; lia.
Qed.

Lemma cotas k t :
  (k < M)%nat -> (t < h)%nat ->
  (sigma M k t <= M)%nat /\ (sigma M k (M - t) <= M)%nat /\
  sigma M k t <> sigma M k (M - t).
Proof.
  intros Hk Ht. repeat split.
  - apply sigma_cota; subst M; lia.
  - apply sigma_cota; subst M; lia.
  - intros E. apply (sigma_iny h Hh) in E; subst M; lia.
Qed.

(** The row at round [k + 1], table [t + 1], by the kind of the two slots. *)
Lemma fila_casos k t :
  (k < M)%nat -> (t < h)%nat ->
  let a := nth (sigma M k t) e "" in
  let b := nth (sigma M k (M - t)) e "" in
  ((nr <= sigma M k t)%nat /\ (sigma M k (M - t) < nr)%nat /\
   fl k t = Fila (Z.of_nat k + 1) (Z.of_nat t + 1) b "" "DESCANSA") \/
  ((sigma M k t < nr)%nat /\ (nr <= sigma M k (M - t))%nat /\
   fl k t = Fila (Z.of_nat k + 1) (Z.of_nat t + 1) a "" "DESCANSA") \/
  ((sigma M k t < nr)%nat /\ (sigma M k (M - t) < nr)%nat /\
   (fl k t = Fila (Z.of_nat k + 1) (Z.of_nat t + 1) a b "" \/
    fl k t = Fila (Z.of_nat k + 1) (Z.of_nat t + 1) b a "")).
Proof.
  intros Hk Ht a b. destruct (cotas k t Hk Ht) as (Ha & Hb & Hab).
  pose proof (Hbye (sigma M k t)) as Ba.
  pose proof (Hbye (sigma M k (M - t))) as Bb.
  fold a in Ba. fold b in Bb.
  subst fl. unfold fila_en. fold M. fold a. fold b.
  destruct (fila_de_par_casos (Z.of_nat k + 1) (Z.of_nat t + 1) bal bye a b)
    as [[H E] | (Ha' & Hb' & E)]; rewrite E.
  - destruct (String.eqb_spec b bye) as [Eb | Eb].
    + right; left. repeat split; auto.
      * apply Bb in Eb; subst M; lia.
      * apply Bb; auto. subst M; lia.
    + left. destruct H as [H | H]; [|contradiction].
      repeat split.
      * apply Ba; auto. subst M; lia.
      * destruct (Nat.lt_ge_cases (sigma M k (M - t)) nr) as [Hlt | Hge]; auto.
        exfalso. apply Eb, Bb; auto. subst M; lia.
  - right; right.
    assert (sigma M k t < nr)%nat.
    { destruct (Nat.lt_ge_cases (sigma M k t) nr) as [Hlt | Hge]; auto.
      exfalso. apply Ha', Ba; auto. subst M; lia. }
    assert (sigma M k (M - t) < nr)%nat.
    { destruct (Nat.lt_ge_cases (sigma M k (M - t)) nr) as [Hlt | Hge]; auto.
      exfalso. apply Hb', Bb; auto. subst M; lia. }
    repeat split; auto. destruct (bal && _); auto.
Qed.

Lemma eqb_nth i j :
  (i <= M)%nat -> (j <= M)%nat ->
  ((nth i e "" =? nth j e "")%string = true <-> i = j).
Proof.
  intros Hi Hj. rewrite String.eqb_eq. split.
  - now apply nth_iny.
  - now intros ->.
Qed.

Lemma participa_fila i k t :
  (i < nr)%nat -> (i <= M)%nat -> (k < M)%nat -> (t < h)%nat ->
  (participa (nth i e "") (fl k t) = true <->
   sigma M k t = i \/ sigma M k (M - t) = i).
Proof.
  intros Hi HiM Hk Ht. destruct (cotas k t Hk Ht) as (Ha & Hb & Hab).
  destruct (fila_casos k t Hk Ht)
    as [(H1 & H2 & E) | [(H1 & H2 & E) | (H1 & H2 & [E | E])]]; rewrite E.
  - rewrite participa_descanso, eqb_nth by assumption. split; [auto|].
    intros [H | H]; [lia | assumption].
  - rewrite participa_descanso, eqb_nth by assumption. split; [auto|].
    intros [H | H]; [assumption | lia].
  - rewrite participa_partido, orb_true_iff, !eqb_nth by assumption. tauto.
  - rewrite participa_partido, orb_true_iff, !eqb_nth by assumption. tauto.
Qed.

Lemma descanso_fila k t :
  (k < M)%nat -> (t < h)%nat ->
  (es_descanso (fl k t) = true <->
   (nr <= sigma M k t)%nat \/ (nr <= sigma M k (M - t))%nat).
Proof.
  intros Hk Ht.
  destruct (fila_casos k t Hk Ht)
    as [(H1 & H2 & E) | [(H1 & H2 & E) | (H1 & H2 & [E | E])]]; rewrite E;
    unfold es_descanso; simpl; split; auto; try discriminate; lia.
Qed.

Lemma descansa_fila i k t :
  (i < nr)%nat -> (i <= M)%nat -> (k < M)%nat -> (t < h)%nat ->
  (es_descanso (fl k t) && (local (fl k t) =? nth i e "")%string = true <->
   (sigma M k t = i /\ (nr <= sigma M k (M - t))%nat) \/
   (sigma M k (M - t) = i /\ (nr <= sigma M k t)%nat)).
Proof.
  intros Hi HiM Hk Ht. destruct (cotas k t Hk Ht) as (Ha & Hb & Hab).
  destruct (fila_casos k t Hk Ht)
    as [(H1 & H2 & E) | [(H1 & H2 & E) | (H1 & H2 & [E | E])]]; rewrite E;
    unfold es_descanso; cbn [nota local].
  - change (("DESCANSA" =? "DESCANSA")%string) with true. cbn [andb].
    rewrite eqb_nth by assumption. split; [auto|]. intros [[? ?] | [? ?]]; auto; lia.
  - change (("DESCANSA" =? "DESCANSA")%string) with true. cbn [andb].
    rewrite eqb_nth by assumption. split; [auto|]. intros [[? ?] | [? ?]]; auto; lia.
  - simpl. split; [discriminate|]. intros [[? ?] | [? ?]]; lia.
  - simpl. split; [discriminate|]. intros [[? ?] | [? ?]]; lia.
Qed.

Lemma juega_fila i j k t :
  (i < nr)%nat -> (i <= M)%nat -> (j < nr)%nat -> (j <= M)%nat ->
  (k < M)%nat -> (t < h)%nat ->
  (juega (nth i e "") (nth j e "") (fl k t) = true <->
   (sigma M k t = i /\ sigma M k (M - t) = j) \/
   (sigma M k t = j /\ sigma M k (M - t) = i)).
Proof.
  intros Hi HiM Hj HjM Hk Ht. destruct (cotas k t Hk Ht) as (Ha & Hb & Hab).
  unfold juega.
  destruct (fila_casos k t Hk Ht)
    as [(H1 & H2 & E) | [(H1 & H2 & E) | (H1 & H2 & [E | E])]]; rewrite E.
  - simpl. split; [discriminate|]. intros [[? ?] | [? ?]]; lia.
  - simpl. split; [discriminate|]. intros [[? ?] | [? ?]]; lia.
  - rewrite !enfrenta_partido, orb_true_iff, !andb_true_iff, !eqb_nth by assumption.
    tauto.
  - rewrite !enfrenta_partido, orb_true_iff, !andb_true_iff, !eqb_nth by assumption.
    tauto.
Qed.

Lemma pv_claves : NoDup (map clave pv).
Proof. exact (salida_claves_distintas e h bal bye Hh He false). Qed.

Lemma en_pv f :
  In f pv <-> exists k t, (k < M)%nat /\ (t < h)%nat /\ f = fl k t.
Proof. apply en_primera_vuelta; assumption. Qed.

Lemma en_ronda_fila r k t : en_ronda r (fl k t) = true <-> r = Z.of_nat k + 1.
Proof.
  unfold en_ronda. subst fl. rewrite ronda_fila_en, Z.eqb_eq. split; auto.
Qed.

Lemma clave_fila k t : clave (fl k t) = (Z.of_nat k + 1, Z.of_nat t + 1).
Proof. unfold clave. subst fl. now rewrite ronda_fila_en, mesa_fila_en. Qed.

(** Two real participants meet in exactly one row of the first leg. *)
Lemma juega_una_vez i j :
  i <> j -> (i < nr)%nat -> (i <= M)%nat -> (j < nr)%nat -> (j <= M)%nat ->
  cuenta (juega (nth i e "") (nth j e "")) pv = 1%nat.
Proof.
  intros Hij Hi HiM Hj HjM.
  destruct (sigma_encuentro h Hh i j Hij HiM HjM) as (k & t & Hk & Ht & Hd).
  apply (cuenta_uno clave _ _ (fl k t)).
  - apply pv_claves.
  - apply en_pv. now exists k, t.
  - now apply juega_fila.
  - intros g Hg HP. apply en_pv in Hg as (k' & t' & Hk' & Ht' & ->).
    apply juega_fila in HP; auto.
    assert (k' = k /\ t' = t) as [-> ->]; [|reflexivity].
    apply (sigma_encuentro_unico h Hh); auto. unfold M in *.
    destruct HP as [[H1 H2] | [H1 H2]], Hd as [[H3 H4] | [H3 H4]];
      [left | right | right | left]; split; congruence.
Qed.

(** A real participant is in exactly one row of each round. *)
Lemma participa_una_vez i k :
  (i < nr)%nat -> (i <= M)%nat -> (k < M)%nat ->
  cuenta (fun f => en_ronda (Z.of_nat k + 1) f && participa (nth i e "") f) pv = 1%nat.
Proof.
  intros Hi HiM Hk.
  destruct (sigma_sobre h Hh k i Hk HiM) as (t & Ht & Hd).
  apply (cuenta_uno clave _ _ (fl k t)).
  - apply pv_claves.
  - apply en_pv. now exists k, t.
  - apply andb_true_iff. split; [now apply en_ronda_fila | now apply participa_fila].
  - intros g Hg HP. apply en_pv in Hg as (k' & t' & Hk' & Ht' & ->).
    apply andb_true_iff in HP as [Hr HP].
    apply en_ronda_fila in Hr. assert (k' = k) as -> by lia.
    apply participa_fila in HP; auto.
    assert (t' = t) as ->; [|reflexivity].
    fold M in Hd.
    destruct HP as [H1 | H1], Hd as [H2 | H2];
      pose proof (eq_trans H1 (eq_sym H2)) as E;
      apply (sigma_iny h Hh) in E; subst M; lia.
Qed.

(** With an odd number of participants each round has exactly one rest. *)
Lemma descanso_por_ronda k :
  nr = M -> (k < M)%nat ->
  cuenta (fun f => en_ronda (Z.of_nat k + 1) f && es_descanso f) pv = 1%nat.
Proof.
  intros Hodd Hk.
  destruct (sigma_sobre h Hh k M Hk (le_n _)) as (t & Ht & Hd).
  apply (cuenta_uno clave _ _ (fl k t)).
  - apply pv_claves.
  - apply en_pv. now exists k, t.
  - apply andb_true_iff. split; [now apply en_ronda_fila|].
    apply descanso_fila; auto. fold M. fold M in Hd. lia.
  - intros g Hg HP. apply en_pv in Hg as (k' & t' & Hk' & Ht' & ->).
    apply andb_true_iff in HP as [Hr HP].
    apply en_ronda_fila in Hr. assert (k' = k) as -> by lia.
    apply descanso_fila in HP; auto.
    destruct (cotas k t' Hk Ht') as (Ha & Hb & _).
    assert (t' = t) as ->; [|reflexivity].
    fold M in Hd.
    assert (HP' : sigma M k t' = M \/ sigma M k (M - t') = M) by lia.
    destruct HP' as [H1 | H1], Hd as [H2 | H2];
      pose proof (eq_trans H1 (eq_sym H2)) as E;
      apply (sigma_iny h Hh) in E; subst M; lia.
Qed.

(** With an odd number of participants each of them rests exactly once. *)
Lemma descansa_una_vez i :
  nr = M -> (i < nr)%nat ->
  cuenta (fun f => es_descanso f && (local f =? nth i e "")%string) pv = 1%nat.
Proof.
  intros Hodd Hi.
  assert (HiM : (i <= M)%nat) by lia.
  assert (Hne : i <> M) by lia.
  destruct (sigma_encuentro h Hh i M Hne HiM (le_n _)) as (k & t & Hk & Ht & Hd).
  fold M in Hd.
  apply (cuenta_uno clave _ _ (fl k t)).
  - apply pv_claves.
  - apply en_pv. now exists k, t.
  - apply descansa_fila; auto. fold M. lia.
  - intros g Hg HP. apply en_pv in Hg as (k' & t' & Hk' & Ht' & ->).
    apply descansa_fila in HP; auto. fold M in HP.
    destruct (cotas k' t' Hk' Ht') as (Ha & Hb & _).
    assert (k' = k /\ t' = t) as [-> ->]; [|reflexivity].
    apply (sigma_encuentro_unico h Hh); auto. fold M.
    destruct HP as [[H1 H2] | [H1 H2]], Hd as [[H3 H4] | [H3 H4]]; lia.
Qed.

(** With an even number of participants no row is a rest. *)
Lemma sin_descanso f : (M < nr)%nat -> In f pv -> es_descanso f = false.
Proof.
  intros Heven Hf. apply en_pv in Hf as (k & t & Hk & Ht & ->).
  destruct (cotas k t Hk Ht) as (Ha & Hb & _).
  destruct (es_descanso (fl k t)) eqn:E; [|reflexivity].
  apply descanso_fila in E; auto. fold M in E. lia.
Qed.
End Calendario.

(** ** The keys of the rows *)

Lemma in_range a b x : In x (range a b) <-> a <= x < b.
Proof.
  unfold range. rewrite in_map_iff. split.
  - intros (k & <- & Hk). apply in_seq in Hk. lia.
  - intros Hx. exists (Z.to_nat (x - a)). split; [lia|]. apply in_seq. lia.
Qed.

Lemma NoDup_map_iny {A B : Type} (f : A -> B) (l : list A) :
  (forall x y, In x l -> In y l -> f x = f y -> x = y) ->
  NoDup l -> NoDup (map f l).
Proof.
  intros Hf. induction 1 as [|x l Hx Hnd IH]; simpl; constructor.
  - rewrite in_map_iff. intros (y & E & Hy).
    apply Hf in E; [subst; contradiction | now right | now left].
  - apply IH. intros a b Ha Hb. apply Hf; now right.
Qed.

Lemma NoDup_range a b : NoDup (range a b).
Proof.
  unfold range. apply NoDup_map_iny; [|apply seq_NoDup].
  intros x y _ _ H. lia.
Qed.

Lemma length_range a b : List.length (range a b) = Z.to_nat (b - a).
Proof. unfold range. now rewrite length_map, length_seq. Qed.

Lemma cuenta_list_prod (rs ts : list Z) (r : Z) :
  NoDup rs -> In r rs ->
  cuenta (fun kk : Z * Z => fst kk =? r) (list_prod rs ts) = List.length ts.
Proof.
  induction rs as [|a rs IH]; intros Hnd Hin; [contradiction|].
  apply NoDup_cons_iff in Hnd as [Hna Hnd].
  cbn [list_prod]. rewrite cuenta_app, cuenta_map. cbn [fst].
  destruct Hin as [-> | Hin].
  - rewrite cuenta_todos by (intros; apply Z.eqb_refl).
    rewrite (cuenta_cero _ (list_prod rs ts)); [lia|].
    intros [x y] Hxy. apply in_prod_iff in Hxy as [Hx _]. cbn [fst].
    apply Z.eqb_neq. intros ->. contradiction.
  - rewrite cuenta_cero.
    + now rewrite IH.
    + intros x _. apply Z.eqb_neq. intros ->. contradiction.
Qed.

(** Rows whose keys are those of [T] rounds of [m] tables: every round from
    1 to [T] has [m] rows and there are [T * m] rows in all. *)
Lemma filas_por_ronda (filas : list fila) (T m r : Z) :
  0 <= m ->
  map clave filas = claves_esperadas T m ->
  1 <= r <= T ->
  cuenta (en_ronda r) filas = Z.to_nat m.
Proof.
  intros Hm Hk Hr.
  assert (E : cuenta (en_ronda r) filas =
              cuenta (fun kk : Z * Z => fst kk =? r) (map clave filas))
    by (now rewrite cuenta_map).
  rewrite E, Hk. unfold claves_esperadas.
  rewrite cuenta_list_prod.
  - rewrite length_range. lia.
  - apply NoDup_range.
  - apply in_range. lia.
Qed.

Lemma total_de_filas (filas : list fila) (T m : Z) :
  0 <= T -> 0 <= m ->
  map clave filas = claves_esperadas T m ->
  len filas = T * m.
Proof.
  intros HT Hm Hk. unfold len.
  rewrite <- (length_map clave), Hk. unfold claves_esperadas.
  rewrite length_prod, !length_range. lia.
Qed.

Lemma rondas_de_filas (filas : list fila) (T m : Z) (f : fila) :
  map clave filas = claves_esperadas T m ->
  In f filas -> 1 <= ronda f <= T /\ 1 <= mesa f <= m.
Proof.
  intros Hk Hf. apply (in_map clave) in Hf. rewrite Hk in Hf.
  unfold claves_esperadas, clave in Hf. apply in_prod_iff in Hf as [H1 H2].
  apply in_range in H1, H2. lia.
Qed.

Section Claves.
Variable e : list string.
Variable h : nat.
Variables (bal : bool) (bye : string).
Hypothesis Hh : (1 <= h)%nat.
Hypothesis He : List.length e = (2 * h)%nat.
Let M := (2 * h - 1)%nat.
Let pv := primera_vuelta e h bal bye.

Lemma claves_desde_esperadas c :
  claves_desde h 0 c = claves_esperadas (Z.of_nat c) (Z.of_nat h).
Proof.
  unfold claves_esperadas, claves_desde.
  rewrite !(Z.add_comm _ 1), !range_seq.
  generalize (seq 0 c) as ks. induction ks as [|k ks IH]; [reflexivity|].
  cbn [map flat_map list_prod]. rewrite IH. f_equal.
  rewrite map_map. apply map_ext. intros t. f_equal; lia.
Qed.

Lemma claves_desde_suma d c s :
  map (fun kk : Z * Z => (fst kk + Z.of_nat d, snd kk)) (claves_desde h s c) =
  claves_desde h (s + d) c.
Proof.
  unfold claves_desde. revert s. induction c as [|c IH]; intros s; [reflexivity|].
  cbn [seq flat_map]. rewrite map_app, IH. f_equal.
  rewrite map_map. apply map_ext. intros t. cbn [fst snd]. f_equal. lia.
Qed.

Lemma claves_primera_vuelta : map clave pv = claves_desde h 0 M.
Proof.
  subst pv. unfold primera_vuelta, claves_desde, M.
  generalize (seq 0 (2 * h - 1)) as ks. induction ks as [|k ks IH]; [reflexivity|].
  cbn [flat_map]. rewrite map_app, IH. f_equal.
  rewrite map_map. apply map_ext. intros t.
  unfold clave. now rewrite ronda_fila_en, mesa_fila_en.
Qed.

Lemma claves_salida (dr : bool) :
  map clave (salida e h bal bye dr) =
  claves_esperadas (Z.of_nat (if dr then 2 * M else M)) (Z.of_nat h).
Proof.
  rewrite <- claves_desde_esperadas. destruct dr; cbn [salida].
  - fold M. fold pv. rewrite map_app. unfold vuelta. rewrite map_map.
    assert (E : map (fun f => clave (fila_vuelta (Z.of_nat M) f)) pv =
                map (fun kk : Z * Z => (fst kk + Z.of_nat M, snd kk)) (map clave pv)).
    { rewrite map_map. apply map_ext. intros f. unfold clave.
      now rewrite ronda_fila_vuelta, mesa_fila_vuelta. }
    rewrite E, claves_primera_vuelta, claves_desde_suma.
    unfold claves_desde. replace (2 * M)%nat with (M + M)%nat by lia.
    rewrite seq_app, flat_map_app. reflexivity.
  - apply claves_primera_vuelta.
Qed.

(** Counting, round by round, rows that satisfy a property which the
    return leg preserves. *)
Lemma cuenta_por_ronda (P : fila -> bool) (c : nat) (dr : bool) (r : Z) :
  (forall f, P (fila_vuelta (Z.of_nat M) f) = P f) ->
  (forall k, (k < M)%nat -> cuenta (fun f => en_ronda (Z.of_nat k + 1) f && P f) pv = c) ->
  1 <= r <= Z.of_nat (if dr then 2 * M else M) ->
  cuenta (fun f => en_ronda r f && P f) (salida e h bal bye dr) = c.
Proof.
  intros HP Hc Hr.
  assert (Hpv : forall f, In f pv -> 1 <= ronda f <= Z.of_nat M).
  { intros f Hf. apply (en_primera_vuelta e h bal bye Hh He) in Hf as (k & t & Hk & Ht & ->).
    rewrite ronda_fila_en. fold M in Hk. lia. }
  assert (Huna : forall r', 1 <= r' <= Z.of_nat M ->
                   cuenta (fun f => en_ronda r' f && P f) pv = c).
  { intros r' Hr'. replace r' with (Z.of_nat (Z.to_nat (r' - 1)) + 1) by lia.
    apply Hc. lia. }
  destruct dr; cbn [salida]; [|now apply Huna].
  fold M. fold pv. rewrite cuenta_app. unfold vuelta. rewrite cuenta_map.
  destruct (Z.le_gt_cases r (Z.of_nat M)) as [Hle | Hgt].
  - rewrite Huna by lia. rewrite cuenta_cero; [lia|].
    intros f Hf. apply Hpv in Hf. unfold en_ronda.
    rewrite ronda_fila_vuelta.
    destruct (Z.eqb_spec (ronda f + Z.of_nat M) r); [lia|reflexivity].
  - rewrite (cuenta_cero _ pv).
    + rewrite <- (Huna (r - Z.of_nat M)) by lia. simpl.
      apply cuenta_ext_in. intros f _. rewrite HP. f_equal.
      unfold en_ronda. rewrite ronda_fila_vuelta.
      destruct (Z.eqb_spec (ronda f + Z.of_nat M) r),
               (Z.eqb_spec (ronda f) (r - Z.of_nat M)); auto; lia.
    + intros f Hf. apply Hpv in Hf. unfold en_ronda.
      destruct (Z.eqb_spec (ronda f) r); [lia|reflexivity].
Qed.

(** In a double round-robin a pair meets once each way round. *)
Lemma enfrenta_ida_y_vuelta x y :
  x <> y ->
  cuenta (enfrenta x y) (salida e h bal bye true) = cuenta (juega x y) pv.
Proof.
  intros Hxy. cbn [salida]. fold M. fold pv.
  rewrite cuenta_app. unfold vuelta. rewrite cuenta_map.
  rewrite (cuenta_ext_in (fun f => enfrenta x y (fila_vuelta (Z.of_nat M) f))
             (enfrenta y x) pv)
    by (intros; apply enfrenta_fila_vuelta).
  unfold juega. rewrite cuenta_disyuncion; [reflexivity|].
  intros f _. now apply enfrenta_exclusivo.
Qed.
End Claves.

(** ** Default names *)

Lemma str_positivo (p : positive) :
  str (Z.pos p) = NilEmpty.string_of_uint (Pos.to_uint p).
Proof.
  unfold str. cbn [Z.to_int NilZero.string_of_int]. unfold NilZero.string_of_uint.
  destruct (Pos.to_uint p) eqn:E; try reflexivity.
  exfalso. revert E. apply DecimalPos.Unsigned.to_uint_nonnil.
Qed.

Lemma str_iny (i j : Z) : 0 < i -> 0 < j -> str i = str j -> i = j.
Proof.
  intros Hi Hj. destruct i as [|p|p]; try lia. destruct j as [|q|q]; try lia.
  rewrite !str_positivo. intros E. f_equal.
  apply DecimalPos.Unsigned.to_uint_inj.
  assert (E' : NilEmpty.uint_of_string (NilEmpty.string_of_uint (Pos.to_uint p)) =
               NilEmpty.uint_of_string (NilEmpty.string_of_uint (Pos.to_uint q)))
    by now rewrite E.
  rewrite !NilEmpty.usu in E'. now injection E'.
Qed.

Lemma NoDup_nombres_por_defecto n : NoDup (nombres_por_defecto n).
Proof.
  unfold nombres_por_defecto. apply NoDup_map_iny; [|apply NoDup_range].
  intros x y Hx Hy E. apply in_range in Hx, Hy.
  injection E as E. apply str_iny; auto; lia.
Qed.

Lemma nombre_por_defecto_E x n :
  In x (nombres_por_defecto n) -> exists s, x = String "E" s.
Proof.
  unfold nombres_por_defecto. rewrite in_map_iff. intros (i & <- & _).
  now exists (str i).
Qed.

(** ** Valid inputs *)

(** With the default names and the default resting label every [n >= 2]
    is a valid input. *)
Lemma entrada_por_defecto h n : 2 <= n -> entrada_valida h n None BYE_LABEL.
Proof.
  intros Hn. repeat split; auto.
  - apply NoDup_nombres_por_defecto.
  - intros H. apply nombre_por_defecto_E in H as (s & H). discriminate.
Qed.

Lemma length_etiquetas h n names :
  bien_formada h n names -> List.length (etiquetas h n names) = Z.to_nat n.
Proof. intros H. apply len_etiquetas in H. unfold len in H. lia. Qed.

Lemma nth_equipos_de h n names bye i :
  bien_formada h n names ->
  (i < 2 * Z.to_nat (mitad_de n))%nat ->
  ((i < Z.to_nat n)%nat /\
   nth i (equipos_de h n names bye) "" = nth i (etiquetas h n names) "" /\
   In (nth i (etiquetas h n names) "") (etiquetas h n names)) \/
  (i = Z.to_nat n /\ impar n = true /\ nth i (equipos_de h n names bye) "" = bye).
Proof.
  intros Hbf Hi. pose proof (length_etiquetas h n names Hbf) as Hl.
  pose proof (length_equipos_de h n names bye Hbf) as Hl'.
  unfold equipos_de in *. rewrite length_app in Hl'.
  destruct (Nat.lt_ge_cases i (Z.to_nat n)) as [Hlt | Hge].
  - left. split; [assumption|]. rewrite app_nth1 by lia. split; [reflexivity|].
    apply nth_In. lia.
  - right. destruct (impar n); simpl in Hl'; [|lia].
    assert (i = Z.to_nat n) as -> by lia. repeat split.
    rewrite app_nth2 by lia. now rewrite Hl, Nat.sub_diag.
Qed.

(** A valid input meets the assumptions of the schedule of distinct labels. *)
Lemma calendario_valido h n names bye :
  entrada_valida h n names bye ->
  let e := equipos_de h n names bye in
  let hh := Z.to_nat (mitad_de n) in
  let nr := Z.to_nat n in
  (1 <= hh)%nat /\ List.length e = (2 * hh)%nat /\ NoDup e /\
  (2 * hh - 1 <= nr)%nat /\
  (forall i, (i < 2 * hh)%nat -> (nth i e "" = bye <-> (nr <= i)%nat)) /\
  (nr = if impar n then (2 * hh - 1)%nat else (2 * hh)%nat) /\
  (forall x, In x (etiquetas h n names) ->
             exists i, (i < nr)%nat /\ (i <= 2 * hh - 1)%nat /\ x = nth i e "").
Proof.
  intros [Hbf [Hnd Hbye]] e hh nr. pose proof Hbf as [Hn _].
  pose proof (mitad_rondas n Hn) as (H1 & H2 & H3).
  pose proof (length_etiquetas h n names Hbf) as Hl.
  pose proof (length_equipos_de h n names bye Hbf) as Hl'.
  assert (Hnr : nr = if impar n then (2 * hh - 1)%nat else (2 * hh)%nat).
  { subst nr hh. destruct (impar n); lia. }
  repeat split.
  - subst hh. lia.
  - assumption.
  - subst e. unfold equipos_de. destruct (impar n).
    + apply (NoDup_Add (Add_app bye (etiquetas h n names) [])).
      now rewrite app_nil_r.
    + now rewrite app_nil_r.
  - destruct (impar n); lia.
  - intros E.
    destruct (nth_equipos_de h n names bye i Hbf H) as [(Hi & E1 & E2) | (Hi & _)];
      [|subst nr; lia].
    exfalso. apply Hbye. fold e in E1. rewrite <- E, E1. exact E2.
  - intros Hi.
    destruct (nth_equipos_de h n names bye i Hbf H) as [(Hi' & _) | (_ & _ & E)];
      [subst nr; lia | exact E].
  - assumption.
  - intros x Hx. destruct (In_nth _ _ "" Hx) as (i & Hi & E).
    exists i. repeat split; try (destruct (impar n); lia).
    subst e. unfold equipos_de. rewrite app_nth1 by lia. now symmetry.
Qed.

(** The rows of a rest name a real participant, whatever the resting label. *)
Lemma descanso_de_participante h n names dr bal bye f :
  bien_formada h n names ->
  In f (fixture h n names dr bal bye) ->
  (nota f = "" /\ In (local f) (etiquetas h n names) /\ In (visita f) (etiquetas h n names)) \/
  (nota f = "DESCANSA" /\ visita f = "" /\ In (local f) (etiquetas h n names)).
Proof.
  intros Hbf Hf. pose proof Hbf as [Hn _].
  pose proof (mitad_rondas n Hn) as (H1 & H2 & H3).
  pose proof (length_equipos_de h n names bye Hbf) as Hl.
  assert (Hh : (1 <= Z.to_nat (mitad_de n))%nat) by lia.
  assert (Hida : forall g, In g (primera_vuelta (equipos_de h n names bye)
                                  (Z.to_nat (mitad_de n)) bal bye) ->
            (nota g = "" /\ In (local g) (etiquetas h n names) /\
             In (visita g) (etiquetas h n names)) \/
            (nota g = "DESCANSA" /\ visita g = "" /\ In (local g) (etiquetas h n names))).
  { intros g Hg. apply (en_primera_vuelta _ _ bal bye Hh Hl) in Hg as (k & t & Hk & Ht & ->).
    set (M := (2 * Z.to_nat (mitad_de n) - 1)%nat) in *.
    assert (Hp : (sigma M k t <= M)%nat) by (apply sigma_cota; subst M; lia).
    assert (Hq : (sigma M k (M - t) <= M)%nat) by (apply sigma_cota; subst M; lia).
    assert (Hpq : sigma M k t <> sigma M k (M - t)).
    { intros E. apply (sigma_iny _ Hh) in E; subst M; lia. }
    set (a := nth (sigma M k t) (equipos_de h n names bye) "").
    set (b := nth (sigma M k (M - t)) (equipos_de h n names bye) "").
    assert (Fa : In a (etiquetas h n names) \/ (sigma M k t = Z.to_nat n /\ a = bye)).
    { destruct (nth_equipos_de h n names bye (sigma M k t) Hbf)
        as [(_ & E1 & E2) | (P & _ & E)]; [subst M; lia | |].
      - left. subst a. now rewrite E1.
      - right. auto. }
    assert (Fb : In b (etiquetas h n names) \/ (sigma M k (M - t) = Z.to_nat n /\ b = bye)).
    { destruct (nth_equipos_de h n names bye (sigma M k (M - t)) Hbf)
        as [(_ & E1 & E2) | (P & _ & E)]; [subst M; lia | |].
      - left. subst b. now rewrite E1.
      - right. auto. }
    assert (HA : a <> bye -> In a (etiquetas h n names)) by (destruct Fa as [|[_ ?]]; tauto).
    assert (HB : b <> bye -> In b (etiquetas h n names)) by (destruct Fb as [|[_ ?]]; tauto).
    assert (HC : In a (etiquetas h n names) \/ In b (etiquetas h n names)).
    { destruct Fa as [|[Pa _]]; auto. destruct Fb as [|[Pb _]]; auto. lia. }
    unfold fila_en. fold M. fold a. fold b.
    destruct (fila_de_par_casos (Z.of_nat k + 1) (Z.of_nat t + 1) bal bye a b)
      as [[H E] | (Ha & Hb & E)]; rewrite E.
    - right. cbn [nota local visita]. repeat split.
      destruct (String.eqb_spec b bye) as [Eb | Eb]; [|auto].
      destruct (String.eqb_spec a bye) as [Ea | Ea]; [|auto].
      destruct HC as [HC | HC]; [assumption|]. now rewrite Ea, <- Eb.
    - left. destruct (bal && _); cbn [nota local visita]; auto. }
  apply (en_salida _ _ bal bye) in Hf as [Hf | (_ & g & Hg & ->)]; [now apply Hida|].
  apply Hida in Hg. unfold fila_vuelta.
  destruct Hg as [(Hg & Hg1 & Hg2) | (Hg & Hg1 & Hg2)]; rewrite Hg; simpl; auto.
Qed.

(** * The claims *)

Lemma devuelve_fixture h n names dr bal bye :
  bien_formada h n names ->
  devuelve h n names dr bal bye (fixture h n names dr bal bye).
Proof.
  intros Hbf. unfold devuelve. now rewrite (generar_fixture_corre h n names dr bal bye Hbf).
Qed.

Lemma claves_fixture h n names dr bal bye :
  bien_formada h n names ->
  map clave (fixture h n names dr bal bye) =
  claves_esperadas (if dr then 2 * rondas_de n else rondas_de n) (mitad_de n).
Proof.
  intros Hbf. pose proof Hbf as [Hn _].
  pose proof (mitad_rondas n Hn) as (H1 & H2 & H3).
  unfold fixture.
  rewrite claves_salida by (lia || now apply length_equipos_de).
  f_equal; [|lia]. destruct dr; lia.
Qed.

(** C6. [generar_fixture] raises [ValueError] exactly when [n < 2] or a list
    of names is supplied whose length is not [n]; on every other input it
    returns rows, so no other exception can come out of it. *)
Theorem errores_de_validacion h n names dr bal bye :
  let r := fst (generar_fixture n names dr bal bye h) in
  (es_ValueError r <-> n < 2 \/ nombres_no_calzan h n names) /\
  (es_ValueError r \/ exists filas, r = Ok filas).
Proof.
  intros r.
  destruct (Z.lt_ge_cases n 2) as [Hlt | Hge].
  - assert (Hr : es_ValueError r).
    { subst r. unfold generar_fixture.
      destruct (Z.ltb_spec n 2); [|lia]. eexists. reflexivity. }
    split; [|now left]. split; auto.
  - assert (Hd : nombres_no_calzan h n names \/ bien_formada h n names).
    { unfold nombres_no_calzan, bien_formada. destruct names as [p|].
      - destruct (Z.eq_dec (len (nth p h [])) n); [right | left]; auto with zarith.
      - right. split; [lia | exact I]. }
    destruct Hd as [Hno | Hbf].
    + assert (Hr : es_ValueError r).
      { subst r. unfold generar_fixture.
        destruct (Z.ltb_spec n 2); [lia|].
        destruct names as [p|]; [|contradiction]. simpl in Hno.
        unfold bind, deref, ret, raise.
        destruct (Z.eqb_spec (len (nth p h [])) n); [contradiction|].
        simpl. eexists. reflexivity. }
      split; [|now left]. split; auto.
    + assert (Hr : r = Ok (fixture h n names dr bal bye)) by (now apply devuelve_fixture).
      split; [|right; eauto]. split.
      * intros [msg E]. rewrite Hr in E. discriminate.
      * intros [H | H]; [lia|]. exfalso.
        destruct names as [p|]; [|exact H]. destruct Hbf as [_ Hl]. now apply H.
Qed.

(** The store after a call extends the store before it. *)
Lemma generar_fixture_extiende h n names dr bal bye :
  exists ext, snd (generar_fixture n names dr bal bye h) = h ++ ext.
Proof.
  destruct (Z.lt_ge_cases n 2) as [Hlt | Hge].
  - exists []. unfold generar_fixture.
    destruct (Z.ltb_spec n 2); [|lia]. simpl. now rewrite app_nil_r.
  - assert (Hd : nombres_no_calzan h n names \/ bien_formada h n names).
    { unfold nombres_no_calzan, bien_formada. destruct names as [p|].
      - destruct (Z.eq_dec (len (nth p h [])) n); [right | left]; auto with zarith.
      - right. split; [lia | exact I]. }
    destruct Hd as [Hno | Hbf].
    + exists []. unfold generar_fixture.
      destruct (Z.ltb_spec n 2); [lia|].
      destruct names as [p|]; [|contradiction]. simpl in Hno.
      unfold bind, deref, ret, raise.
      destruct (Z.eqb_spec (len (nth p h [])) n); [contradiction|].
      simpl. now rewrite app_nil_r.
    + exists [equipos_de h n names bye].
      now rewrite (generar_fixture_corre h n names dr bal bye Hbf).
Qed.

(** C9. The caller's list of names is the same object with the same
    contents after the call, whether it returns or raises, also when [n] is
    odd and the resting label is appended to the working copy. *)
Theorem names_no_cambia h n p dr bal bye l :
  nth_error h p = Some l ->
  nth_error (snd (generar_fixture n (Some p) dr bal bye h)) p = Some l.
Proof.
  intros Hp. destruct (generar_fixture_extiende h n (Some p) dr bal bye) as [ext ->].
  rewrite nth_error_app1; [assumption|].
  apply nth_error_Some. congruence.
Qed.

Lemma names_no_cambia_testigo :
  nth_error (snd (generar_fixture 3 (Some 0%nat) true true "DESCANSA" [["a"; "b"; "c"]])) 0
  = Some ["a"; "b"; "c"].
Proof. apply (names_no_cambia [["a"; "b"; "c"]] 3 0%nat true true "DESCANSA"). reflexivity. Defined.

(** C7. The rows come sorted by (round, table), strictly; their keys are
    exactly the rounds 1 to the total number of rounds and, within each
    round, the tables 1 to the number of tables per round, in order. *)
Theorem salida_ordenada_y_contigua h n names dr bal bye :
  bien_formada h n names ->
  exists filas,
    devuelve h n names dr bal bye filas /\
    StronglySorted antes filas /\
    map clave filas =
    claves_esperadas (if dr then 2 * rondas_de n else rondas_de n) (mitad_de n).
Proof.
  intros Hbf. exists (fixture h n names dr bal bye). split; [|split].
  - now apply devuelve_fixture.
  - pose proof Hbf as [Hn _]. pose proof (mitad_rondas n Hn) as (H1 & _).
    apply salida_ordenada; [lia | now apply length_equipos_de].
  - now apply claves_fixture.
Qed.

Lemma salida_ordenada_y_contigua_testigo :
  exists filas,
    devuelve [] 5 None true true BYE_LABEL filas /\
    StronglySorted antes filas /\
    map clave filas = claves_esperadas (2 * rondas_de 5) (mitad_de 5).
Proof.
  apply (salida_ordenada_y_contigua [] 5 None true true BYE_LABEL).
  split; [lia | exact I].
Defined.

Lemma Forall2_map_der {A B : Type} (R : A -> B -> Prop) (f : A -> B) (l : list A) :
  (forall x, In x l -> R x (f x)) -> Forall2 R l (map f l).
Proof.
  induction l as [|a l IH]; intros H; simpl; constructor.
  - apply H. now left.
  - apply IH. intros x Hx. apply H. now right.
Qed.

(** C4. With [double_round] the rows are those of the single round-robin
    followed by one mirrored row for each of them, in the same order, at the
    round [rondas_de n] later and the same table; the rounds of the double
    round-robin are twice those of the single one. *)
Theorem vuelta_es_espejo h n names bal bye :
  bien_formada h n names ->
  exists ida vta,
    devuelve h n names false bal bye ida /\
    devuelve h n names true bal bye (ida ++ vta) /\
    Forall2 (es_espejo (rondas_de n)) ida vta /\
    map clave ida = claves_esperadas (rondas_de n) (mitad_de n) /\
    map clave (ida ++ vta) = claves_esperadas (2 * rondas_de n) (mitad_de n) /\
    (forall f, In f ida ->
       cuenta (fun g => (ronda g =? ronda f + rondas_de n) && (mesa g =? mesa f))
              (ida ++ vta) = 1%nat).
Proof.
  intros Hbf. pose proof Hbf as [Hn _].
  pose proof (mitad_rondas n Hn) as (H1 & H2 & H3).
  pose proof (length_equipos_de h n names bye Hbf) as Hl.
  set (ida := fixture h n names false bal bye).
  assert (HR : Z.of_nat (2 * Z.to_nat (mitad_de n) - 1) = rondas_de n) by lia.
  assert (Hdoble : fixture h n names true bal bye = ida ++ vuelta (rondas_de n) ida).
  { unfold fixture, ida. cbn [salida]. now rewrite HR. }
  exists ida, (vuelta (rondas_de n) ida). repeat split.
  - now apply devuelve_fixture.
  - rewrite <- Hdoble. now apply devuelve_fixture.
  - apply Forall2_map_der. intros f Hf. unfold es_espejo.
    rewrite ronda_fila_vuelta, mesa_fila_vuelta. repeat split.
    + apply (descanso_de_participante h n names false bal bye f Hbf) in Hf.
      unfold fila_vuelta. destruct Hf as [(E & _) | (E & _)]; now rewrite E.
    + apply (descanso_de_participante h n names false bal bye f Hbf) in Hf.
      unfold es_descanso, fila_vuelta.
      destruct Hf as [(E & _) | (E & _)]; rewrite E; simpl; auto.
  - exact (claves_fixture h n names false bal bye Hbf).
  - rewrite <- Hdoble. exact (claves_fixture h n names true bal bye Hbf).
  - intros f Hf. rewrite <- Hdoble.
    apply (cuenta_uno clave _ _ (fila_vuelta (rondas_de n) f)).
    + apply salida_claves_distintas; [lia | assumption].
    + rewrite Hdoble. apply in_app_iff. right. now apply in_map.
    + rewrite ronda_fila_vuelta, mesa_fila_vuelta, !Z.eqb_refl. reflexivity.
    + intros g _ Hg. apply andb_true_iff in Hg as [Hg1 Hg2].
      apply Z.eqb_eq in Hg1, Hg2. unfold clave.
      now rewrite ronda_fila_vuelta, mesa_fila_vuelta, Hg1, Hg2.
Qed.

Lemma vuelta_es_espejo_testigo :
  exists ida vta,
    devuelve [] 4 None false true BYE_LABEL ida /\
    devuelve [] 4 None true true BYE_LABEL (ida ++ vta) /\
    Forall2 (es_espejo (rondas_de 4)) ida vta /\
    map clave ida = claves_esperadas (rondas_de 4) (mitad_de 4) /\
    map clave (ida ++ vta) = claves_esperadas (2 * rondas_de 4) (mitad_de 4) /\
    (forall f, In f ida ->
       cuenta (fun g => (ronda g =? ronda f + rondas_de 4) && (mesa g =? mesa f))
              (ida ++ vta) = 1%nat).
Proof.
  apply (vuelta_es_espejo [] 4 None true BYE_LABEL). split; [lia | exact I].
Defined.

(** The slot of the resting label is the one after the real participants. *)
Lemma slot_de_descanso h n names bye i :
  bien_formada h n names ->
  ~ In bye (etiquetas h n names) ->
  (i < 2 * Z.to_nat (mitad_de n))%nat ->
  (nth i (equipos_de h n names bye) "" = bye <-> (Z.to_nat n <= i)%nat).
Proof.
  intros Hbf Hbye Hi. split.
  - intros E.
    destruct (nth_equipos_de h n names bye i Hbf Hi) as [(Hi' & E1 & E2) | (Hi' & _)];
      [|lia].
    exfalso. apply Hbye. rewrite <- E, E1. exact E2.
  - intros Hge.
    destruct (nth_equipos_de h n names bye i Hbf Hi) as [(Hi' & _) | (_ & _ & E)];
      [lia | exact E].
Qed.

(** C3. For an even [n] the single round-robin has the rounds 1 to [n - 1],
    each with the tables 1 to [n / 2], no row is a rest, and the number of
    rows is the product of rounds and tables. *)
Theorem pares_sin_descanso h n names bal bye :
  bien_formada h n names ->
  ~ In bye (etiquetas h n names) ->
  n mod 2 = 0 ->
  exists filas,
    devuelve h n names false bal bye filas /\
    map clave filas = claves_esperadas (n - 1) (n / 2) /\
    (forall r, 1 <= r <= n - 1 -> cuenta (en_ronda r) filas = Z.to_nat (n / 2)) /\
    (forall f, In f filas -> nota f = "") /\
    len filas = (n - 1) * (n / 2).
Proof.
  intros Hbf Hbye Hpar. pose proof Hbf as [Hn _].
  pose proof (mitad_rondas n Hn) as (H1 & H2 & H3).
  pose proof (length_equipos_de h n names bye Hbf) as Hl.
  assert (Himp : impar n = false) by (unfold impar; rewrite Hpar; reflexivity).
  assert (Hr : rondas_de n = n - 1) by (unfold rondas_de; now rewrite Himp).
  assert (Hm : mitad_de n = n / 2) by (unfold mitad_de; now rewrite Himp).
  rewrite Himp in H3.
  pose proof (claves_fixture h n names false bal bye Hbf) as Hk.
  cbv iota in Hk. rewrite Hr, Hm in Hk.
  exists (fixture h n names false bal bye). repeat split.
  - now apply devuelve_fixture.
  - exact Hk.
  - intros r Hr'. apply (filas_por_ronda _ (n - 1) (n / 2)); auto; lia.
  - intros f Hf.
    destruct (descanso_de_participante h n names false bal bye f Hbf Hf)
      as [(E & _) | (E & _)]; [assumption|].
    exfalso. unfold fixture in Hf. cbn [salida] in Hf.
    assert (Hh : (1 <= Z.to_nat (mitad_de n))%nat) by lia.
    assert (Hnr : (2 * Z.to_nat (mitad_de n) - 1 <= Z.to_nat n)%nat) by lia.
    assert (Hev : (2 * Z.to_nat (mitad_de n) - 1 < Z.to_nat n)%nat) by lia.
    pose proof (sin_descanso _ _ bal bye (Z.to_nat n) Hh Hl Hnr
                  (fun i Hi => slot_de_descanso h n names bye i Hbf Hbye Hi) f Hev Hf) as Hd.
    unfold es_descanso in Hd. rewrite E in Hd. discriminate.
  - apply total_de_filas; auto; lia.
Qed.

Lemma pares_sin_descanso_testigo :
  exists filas,
    devuelve [] 4 None false true BYE_LABEL filas /\
    map clave filas = claves_esperadas (4 - 1) (4 / 2) /\
    (forall r, 1 <= r <= 4 - 1 -> cuenta (en_ronda r) filas = Z.to_nat (4 / 2)) /\
    (forall f, In f filas -> nota f = "") /\
    len filas = (4 - 1) * (4 / 2).
Proof.
  apply (pares_sin_descanso [] 4 None true BYE_LABEL).
  - split; [lia | exact I].
  - apply (entrada_por_defecto [] 4). lia.
  - reflexivity.
Defined.

(** C2. For an odd [n >= 3] the single round-robin has the rounds 1 to [n],
    each with the tables 1 to [(n + 1) / 2]; each round has exactly one rest
    row, and each participant has exactly one rest row over the rounds. *)
Theorem impares_con_descanso h n names bal bye :
  entrada_valida h n names bye ->
  3 <= n -> n mod 2 = 1 ->
  exists filas,
    devuelve h n names false bal bye filas /\
    map clave filas = claves_esperadas n ((n + 1) / 2) /\
    (forall r, 1 <= r <= n ->
       cuenta (en_ronda r) filas = Z.to_nat ((n + 1) / 2) /\
       cuenta (fun f => en_ronda r f && es_descanso f) filas = 1%nat) /\
    (forall x, In x (etiquetas h n names) ->
       cuenta (fun f => es_descanso f && (local f =? x)%string) filas = 1%nat).
Proof.
  intros Hv Hn3 Himpar. pose proof Hv as [Hbf _]. pose proof Hbf as [Hn _].
  pose proof (mitad_rondas n Hn) as (H1 & H2 & H3).
  assert (Himp : impar n = true) by (unfold impar; rewrite Himpar; reflexivity).
  assert (Hr : rondas_de n = n) by (unfold rondas_de; now rewrite Himp).
  assert (Hm : mitad_de n = (n + 1) / 2) by (unfold mitad_de; now rewrite Himp).
  pose proof (calendario_valido h n names bye Hv) as Hc. cbv zeta in Hc.
  destruct Hc as (Hh & He & Hnd & Hnr & Hslot & Hnreq & Hidx).
  rewrite Himp in Hnreq, H3.
  pose proof (claves_fixture h n names false bal bye Hbf) as Hk.
  cbv iota in Hk. rewrite Hr, Hm in Hk.
  exists (fixture h n names false bal bye). repeat split.
  - now apply devuelve_fixture.
  - exact Hk.
  - apply (filas_por_ronda _ n ((n + 1) / 2)); auto; lia.
  - unfold fixture. cbn [salida].
    replace r with (Z.of_nat (Z.to_nat (r - 1)) + 1) by lia.
    apply (descanso_por_ronda _ _ bal bye (Z.to_nat n)); auto; lia.
  - intros x Hx. destruct (Hidx x Hx) as (i & Hi & HiM & ->).
    unfold fixture. cbn [salida].
    apply (descansa_una_vez _ _ bal bye (Z.to_nat n)); auto.
Qed.

Lemma impares_con_descanso_testigo :
  exists filas,
    devuelve [] 5 None false true BYE_LABEL filas /\
    map clave filas = claves_esperadas 5 ((5 + 1) / 2) /\
    (forall r, 1 <= r <= 5 ->
       cuenta (en_ronda r) filas = Z.to_nat ((5 + 1) / 2) /\
       cuenta (fun f => en_ronda r f && es_descanso f) filas = 1%nat) /\
    (forall x, In x (etiquetas [] 5 None) ->
       cuenta (fun f => es_descanso f && (local f =? x)%string) filas = 1%nat).
Proof.
  apply (impares_con_descanso [] 5 None true BYE_LABEL).
  - apply entrada_por_defecto. lia.
  - lia.
  - reflexivity.
Defined.

(** C5. In every round of the fixture each real participant takes part in
    exactly one row; the resting label itself takes part in none, and its
    slot is the single rest row of the round when [n] is odd (there is no
    rest row when [n] is even). *)
Theorem una_mesa_por_ronda h n names (dr : bool) bal bye r :
  entrada_valida h n names bye ->
  1 <= r <= (if dr then 2 * rondas_de n else rondas_de n) ->
  exists filas,
    devuelve h n names dr bal bye filas /\
    (forall x, In x (etiquetas h n names) ->
       cuenta (fun f => en_ronda r f && participa x f) filas = 1%nat) /\
    cuenta (fun f => en_ronda r f && participa bye f) filas = 0%nat /\
    cuenta (fun f => en_ronda r f && es_descanso f) filas = (if impar n then 1 else 0)%nat.
Proof.
  intros Hv Hr. pose proof Hv as [Hbf [_ Hbye]]. pose proof Hbf as [Hn _].
  pose proof (mitad_rondas n Hn) as (H1 & H2 & H3).
  pose proof (calendario_valido h n names bye Hv) as Hc. cbv zeta in Hc.
  destruct Hc as (Hh & He & Hnd & Hnr & Hslot & Hnreq & Hidx).
  assert (Hr' : 1 <= r <= Z.of_nat (if dr then (2 * (2 * Z.to_nat (mitad_de n) - 1))%nat
                                    else (2 * Z.to_nat (mitad_de n) - 1)%nat))
    by (destruct dr; lia).
  exists (fixture h n names dr bal bye). repeat split.
  - now apply devuelve_fixture.
  - intros x Hx. destruct (Hidx x Hx) as (i & Hi & HiM & ->).
    unfold fixture. apply cuenta_por_ronda; auto.
    + intros f. apply participa_fila_vuelta.
    + intros k Hk. apply (participa_una_vez _ _ bal bye (Z.to_nat n)); auto.
  - apply cuenta_cero. intros f Hf.
    apply andb_false_iff. right. unfold participa, es_descanso.
    destruct (descanso_de_participante h n names dr bal bye f Hbf Hf)
      as [(E & E1 & E2) | (E & E1 & E2)]; rewrite E.
    + destruct (String.eqb_spec (local f) bye) as [El | El]; [congruence|].
      destruct (String.eqb_spec (visita f) bye) as [Ev | Ev]; [congruence|].
      reflexivity.
    + destruct (String.eqb_spec (local f) bye) as [El | El]; [congruence|].
      reflexivity.
  - destruct (impar n) eqn:Himp.
    + unfold fixture. apply cuenta_por_ronda; auto.
      * intros f. apply es_descanso_fila_vuelta.
      * intros k Hk. apply (descanso_por_ronda _ _ bal bye (Z.to_nat n)); auto.
    + apply cuenta_cero. intros f Hf. apply andb_false_iff. right.
      assert (Hida : forall g, In g (primera_vuelta (equipos_de h n names bye)
                                       (Z.to_nat (mitad_de n)) bal bye) ->
                               es_descanso g = false).
      { intros g Hg. apply (sin_descanso _ _ bal bye (Z.to_nat n) Hh He Hnr Hslot); auto. lia. }
      apply (en_salida _ _ bal bye) in Hf as [Hf | (_ & g & Hg & ->)]; auto.
      rewrite es_descanso_fila_vuelta. auto.
Qed.

Lemma una_mesa_por_ronda_testigo :
  exists filas,
    devuelve [] 5 None true true BYE_LABEL filas /\
    (forall x, In x (etiquetas [] 5 None) ->
       cuenta (fun f => en_ronda 7 f && participa x f) filas = 1%nat) /\
    cuenta (fun f => en_ronda 7 f && participa BYE_LABEL f) filas = 0%nat /\
    cuenta (fun f => en_ronda 7 f && es_descanso f) filas = (if impar 5 then 1 else 0)%nat.
Proof.
  apply (una_mesa_por_ronda [] 5 None true true BYE_LABEL 7).
  - apply entrada_por_defecto. lia.
  - vm_compute. split; discriminate.
Defined.

(** C1. Two distinct real participants meet in exactly one row of the
    single round-robin; in the double round-robin they meet in exactly two,
    once with each of them at home. Rest rows are not matches. *)
Theorem todos_contra_todos h n names (dr : bool) bal bye x y :
  entrada_valida h n names bye ->
  In x (etiquetas h n names) -> In y (etiquetas h n names) -> x <> y ->
  exists filas,
    devuelve h n names dr bal bye filas /\
    if dr then
      cuenta (juega x y) filas = 2%nat /\
      cuenta (enfrenta x y) filas = 1%nat /\
      cuenta (enfrenta y x) filas = 1%nat
    else cuenta (juega x y) filas = 1%nat.
Proof.
  intros Hv Hx Hy Hxy. pose proof Hv as [Hbf _].
  pose proof (calendario_valido h n names bye Hv) as Hc. cbv zeta in Hc.
  destruct Hc as (Hh & He & Hnd & Hnr & Hslot & Hnreq & Hidx).
  destruct (Hidx x Hx) as (i & Hi & HiM & ->).
  destruct (Hidx y Hy) as (j & Hj & HjM & ->).
  assert (Hij : i <> j) by (intros ->; now apply Hxy).
  exists (fixture h n names dr bal bye). split; [now apply devuelve_fixture|].
  pose proof (juega_una_vez _ _ bal bye (Z.to_nat n) Hh He Hnd Hnr Hslot
                i j Hij Hi HiM Hj HjM) as Hu.
  pose proof (juega_una_vez _ _ bal bye (Z.to_nat n) Hh He Hnd Hnr Hslot
                j i (not_eq_sym Hij) Hj HjM Hi HiM) as Hu'.
  unfold fixture. destruct dr; [|exact Hu].
  assert (E1 := enfrenta_ida_y_vuelta (equipos_de h n names bye) (Z.to_nat (mitad_de n))
                  bal bye _ _ Hxy).
  assert (E2 := enfrenta_ida_y_vuelta (equipos_de h n names bye) (Z.to_nat (mitad_de n))
                  bal bye _ _ (not_eq_sym Hxy)).
  rewrite Hu in E1. rewrite Hu' in E2.
  repeat split; auto.
  unfold juega. rewrite cuenta_disyuncion.
  - now rewrite E1, E2.
  - intros f _. now apply enfrenta_exclusivo.
Qed.

Lemma todos_contra_todos_testigo :
  exists filas,
    devuelve [] 4 None true true BYE_LABEL filas /\
    cuenta (juega "E1" "E3") filas = 2%nat /\
    cuenta (enfrenta "E1" "E3") filas = 1%nat /\
    cuenta (enfrenta "E3" "E1") filas = 1%nat.
Proof.
  apply (todos_contra_todos [] 4 None true true BYE_LABEL "E1" "E3").
  - apply entrada_por_defecto. lia.
  - vm_compute. auto.
  - vm_compute. auto.
  - discriminate.
Defined.

(** ** Home and away alternation *)

Lemma par_mod r : (r mod 2 =? 0) = Z.even r.
Proof. rewrite Zmod_even. now destruct (Z.even r). Qed.

Lemma alterna_fila_de_par r m bye a b :
  alterna r (fila_de_par r m true bye a b) (fila_de_par r m false bye a b).
Proof.
  unfold alterna, fila_de_par. rewrite par_mod, <- Z.negb_even.
  destruct ((a =? bye)%string || (b =? bye)%string).
  - cbn [ronda mesa nota local visita andb]. unfold es_descanso.
    repeat split; auto; simpl; intros; discriminate.
  - cbn [andb]. destruct (Z.even r); cbn [ronda mesa nota local visita];
      repeat split; auto; simpl; intros; discriminate.
Qed.

Lemma alterna_fila_vuelta r R m bye a b :
  alterna r (fila_vuelta R (fila_de_par r m true bye a b))
            (fila_vuelta R (fila_de_par r m false bye a b)).
Proof.
  unfold alterna, fila_vuelta, fila_de_par. rewrite par_mod, <- Z.negb_even.
  destruct ((a =? bye)%string || (b =? bye)%string).
  - cbn [ronda mesa nota local visita andb]. unfold es_descanso. simpl.
    repeat split; auto; simpl; intros; discriminate.
  - cbn [andb]. destruct (Z.even r); cbn [ronda mesa nota local visita]; simpl;
      repeat split; auto; simpl; intros; discriminate.
Qed.

Lemma Forall2_flat_map_map {A B C : Type} (R : C -> C -> Prop)
    (F G : A -> B -> C) (ks : list A) (ts : list B) :
  (forall k t, In k ks -> In t ts -> R (F k t) (G k t)) ->
  Forall2 R (flat_map (fun k => map (F k) ts) ks) (flat_map (fun k => map (G k) ts) ks).
Proof.
  induction ks as [|k ks IH]; intros H; simpl; [constructor|].
  apply Forall2_app.
  - assert (Hk : forall t, In t ts -> R (F k t) (G k t)) by (intros; apply H; simpl; auto).
    clear - Hk. induction ts as [|t ts IHt]; simpl; constructor.
    + apply Hk. now left.
    + apply IHt. intros. apply Hk. now right.
  - apply IH. intros. apply H; simpl; auto.
Qed.

Lemma Forall2_map_ambos {A B : Type} (R : B -> B -> Prop) (f : A -> B) (l1 l2 : list A) :
  Forall2 (fun x y => R (f x) (f y)) l1 l2 -> Forall2 R (map f l1) (map f l2).
Proof. induction 1; simpl; constructor; auto. Qed.

Lemma alterna_salida (e : list string) (h : nat) (bye : string) (dr : bool) :
  (1 <= h)%nat ->
  Forall2 (alterna_por_ronda_de_ida (Z.of_nat (2 * h - 1)))
          (salida e h true bye dr) (salida e h false bye dr).
Proof.
  intros Hh. set (R := Z.of_nat (2 * h - 1)).
  assert (H : Forall2 (fun f g => alterna_por_ronda_de_ida R f g /\
                                  alterna_por_ronda_de_ida R (fila_vuelta R f) (fila_vuelta R g))
                      (primera_vuelta e h true bye) (primera_vuelta e h false bye)).
  { unfold primera_vuelta. apply Forall2_flat_map_map. intros k t Hk Ht.
    apply in_seq in Hk. unfold alterna_por_ronda_de_ida, ronda_de_ida.
    rewrite ronda_fila_vuelta, ronda_fila_en.
    destruct (Z.leb_spec (Z.of_nat k + 1) R); [|subst R; lia].
    destruct (Z.leb_spec (Z.of_nat k + 1 + R) R); [subst R; lia|].
    replace (Z.of_nat k + 1 + R - R) with (Z.of_nat k + 1) by lia.
    unfold fila_en. split; [apply alterna_fila_de_par | apply alterna_fila_vuelta]. }
  destruct dr; cbn [salida]; fold R.
  - apply Forall2_app.
    + eapply Forall2_impl; [|exact H]. intros f g [H1 _]. exact H1.
    + unfold vuelta. apply Forall2_map_ambos.
      eapply Forall2_impl; [|exact H]. intros f g [_ H2]. exact H2.
  - eapply Forall2_impl; [|exact H]. intros f g [H1 _]. exact H1.
Qed.

(** C8, as amended. The balanced and the unbalanced run agree position by
    position on round, table, note and the two sides of each row; rows of a
    round that comes from an odd round of the first leg are equal, and
    matches of a round that comes from an even round of the first leg have
    home and away swapped. In a single round-robin that is the parity of
    the row's own round. *)
Theorem balance_por_ronda_de_ida h n names dr bye :
  bien_formada h n names ->
  exists con sin,
    devuelve h n names dr true bye con /\
    devuelve h n names dr false bye sin /\
    Forall2 (alterna_por_ronda_de_ida (rondas_de n)) con sin /\
    (dr = false -> Forall2 alterna_por_ronda con sin).
Proof.
  intros Hbf. pose proof Hbf as [Hn _].
  pose proof (mitad_rondas n Hn) as (H1 & H2 & H3).
  assert (HR : Z.of_nat (2 * Z.to_nat (mitad_de n) - 1) = rondas_de n) by lia.
  assert (Hh : (1 <= Z.to_nat (mitad_de n))%nat) by lia.
  pose proof (alterna_salida (equipos_de h n names bye) (Z.to_nat (mitad_de n))
                bye dr Hh) as Ha.
  rewrite HR in Ha.
  exists (fixture h n names dr true bye), (fixture h n names dr false bye).
  repeat split; try (now apply devuelve_fixture); [exact Ha|].
  intros ->. unfold fixture in *.
  assert (Hin : forall f g, In f (salida (equipos_de h n names bye)
                                    (Z.to_nat (mitad_de n)) true bye false) ->
                            alterna_por_ronda_de_ida (rondas_de n) f g ->
                            alterna_por_ronda f g).
  { intros f g Hf Hfg. unfold alterna_por_ronda_de_ida, ronda_de_ida in Hfg.
    pose proof (claves_fixture h n names false true bye Hbf) as Hk.
    apply (rondas_de_filas _ _ _ f Hk) in Hf.
    destruct (Z.leb_spec (ronda f) (rondas_de n)); [exact Hfg | lia]. }
  revert Hin Ha. generalize (salida (equipos_de h n names bye)
                               (Z.to_nat (mitad_de n)) true bye false)
                            (salida (equipos_de h n names bye)
                               (Z.to_nat (mitad_de n)) false bye false).
  intros l1 l2 Hin Ha. induction Ha; constructor.
  - apply Hin; [now left | assumption].
  - apply IHHa. intros f g Hf. apply Hin. now right.
Qed.

Lemma balance_por_ronda_de_ida_testigo :
  exists con sin,
    devuelve [] 5 None true true BYE_LABEL con /\
    devuelve [] 5 None true false BYE_LABEL sin /\
    Forall2 (alterna_por_ronda_de_ida (rondas_de 5)) con sin /\
    (true = false -> Forall2 alterna_por_ronda con sin).
Proof.
  apply (balance_por_ronda_de_ida [] 5 None true BYE_LABEL). split; [lia | exact I].
Defined.

(** C8, as stated, fails: in the double round-robin of two teams the only
    match of round 2, an even round, is the same row in both runs. *)
Lemma balance_por_ronda_falla :
  exists con sin,
    devuelve [] 2 None true true BYE_LABEL con /\
    devuelve [] 2 None true false BYE_LABEL sin /\
    ~ Forall2 alterna_por_ronda con sin.
Proof.
  eexists. eexists. split; [vm_compute; reflexivity|].
  split; [vm_compute; reflexivity|].
  intros H. inversion H as [|f1 g1 l1 l2 _ H2]; subst.
  inversion H2 as [|f2 g2 l1' l2' Hfg _]; subst.
  destruct Hfg as (_ & _ & _ & _ & _ & Hpar).
  destruct (Hpar eq_refl eq_refl) as [E _]. discriminate E.
Qed.

(** ** The resting label *)

Lemma flat_map_ext_in {A B : Type} (f g : A -> list B) (l : list A) :
  (forall a, In a l -> f a = g a) -> flat_map f l = flat_map g l.
Proof.
  induction l as [|a l IH]; intros H; simpl; [reflexivity|].
  rewrite (H a (or_introl eq_refl)), IH; [reflexivity|].
  intros b Hb. apply H. now right.
Qed.

(** With an odd [n] every round has a rest row. *)
Lemma hay_descanso h n names (dr : bool) bal bye r :
  bien_formada h n names -> impar n = true ->
  1 <= r <= (if dr then 2 * rondas_de n else rondas_de n) ->
  exists f, In f (fixture h n names dr bal bye) /\ ronda f = r /\ nota f = "DESCANSA".
Proof.
  intros Hbf Himp Hr. pose proof Hbf as [Hn _].
  pose proof (mitad_rondas n Hn) as (H1 & H2 & H3). rewrite Himp in H3.
  pose proof (length_equipos_de h n names bye Hbf) as Hl.
  assert (Hh : (1 <= Z.to_nat (mitad_de n))%nat) by lia.
  set (hh := Z.to_nat (mitad_de n)) in *. set (M := (2 * hh - 1)%nat).
  assert (HR : Z.of_nat M = rondas_de n) by (subst M hh; lia).
  assert (Hida : forall k, (k < M)%nat ->
            exists f, In f (primera_vuelta (equipos_de h n names bye) hh bal bye) /\
                      ronda f = Z.of_nat k + 1 /\ nota f = "DESCANSA").
  { intros k Hk. destruct (sigma_sobre hh Hh k M Hk (le_n _)) as (t & Ht & Hd).
    fold M in Hd.
    exists (fila_en (equipos_de h n names bye) hh bal bye k t). split; [|split].
    - apply en_primera_vuelta; auto. now exists k, t.
    - apply ronda_fila_en.
    - assert (Hbye : nth M (equipos_de h n names bye) "" = bye).
      { destruct (nth_equipos_de h n names bye M Hbf) as [(P & _) | (_ & _ & E)];
          [subst M hh; lia | subst M hh; lia | exact E]. }
      unfold fila_en. fold M.
      destruct (nota_fila_de_par (Z.of_nat k + 1) (Z.of_nat t + 1) bal bye
                  (nth (sigma M k t) (equipos_de h n names bye) "")
                  (nth (sigma M k (M - t)) (equipos_de h n names bye) ""))
        as [(_ & Ha & Hb) | (E & _)]; [|exact E].
      exfalso. destruct Hd as [Hd | Hd]; rewrite Hd in *; contradiction. }
  destruct (Z.le_gt_cases r (Z.of_nat M)) as [Hle | Hgt].
  - destruct (Hida (Z.to_nat (r - 1))) as (f & Hf & Hrf & Hnf); [lia|].
    exists f. repeat split; [|lia|assumption].
    apply en_salida. now left.
  - destruct dr; [|lia].
    destruct (Hida (Z.to_nat (r - Z.of_nat M - 1))) as (f & Hf & Hrf & Hnf); [lia|].
    exists (fila_vuelta (Z.of_nat M) f). repeat split.
    + apply en_salida. right. split; [reflexivity|]. now exists f.
    + rewrite ronda_fila_vuelta. lia.
    + unfold fila_vuelta. now rewrite Hnf.
Qed.

(** The rows do not depend on a resting label that is no participant's. *)
Lemma fixture_sin_etiqueta h n names dr bal bye bye' :
  bien_formada h n names ->
  ~ In bye (etiquetas h n names) -> ~ In bye' (etiquetas h n names) ->
  fixture h n names dr bal bye = fixture h n names dr bal bye'.
Proof.
  intros Hbf Hb Hb'. pose proof Hbf as [Hn _].
  pose proof (mitad_rondas n Hn) as (H1 & H2 & H3).
  assert (Hh : (1 <= Z.to_nat (mitad_de n))%nat) by lia.
  set (hh := Z.to_nat (mitad_de n)) in *. set (M := (2 * hh - 1)%nat).
  assert (Hpv : primera_vuelta (equipos_de h n names bye) hh bal bye =
                primera_vuelta (equipos_de h n names bye') hh bal bye').
  { unfold primera_vuelta. apply flat_map_ext_in. intros k Hk. apply in_seq in Hk.
    apply map_ext_in. intros t Ht. apply in_seq in Ht.
    unfold fila_en. fold M.
    assert (Hp : (sigma M k t <= M)%nat) by (apply sigma_cota; subst M; lia).
    assert (Hq : (sigma M k (M - t) <= M)%nat) by (apply sigma_cota; subst M; lia).
    assert (Hpq : sigma M k t <> sigma M k (M - t)).
    { intros E. apply (sigma_iny _ Hh) in E; subst M; lia. }
    set (p := sigma M k t) in *. set (q := sigma M k (M - t)) in *.
    assert (Hslot : forall i c, (i <= M)%nat -> ~ In c (etiquetas h n names) ->
              (i < Z.to_nat n)%nat /\
              nth i (equipos_de h n names c) "" = nth i (etiquetas h n names) "" /\
              nth i (etiquetas h n names) "" <> c \/
              i = Z.to_nat n /\ nth i (equipos_de h n names c) "" = c).
    { intros i c Hi Hc.
      destruct (nth_equipos_de h n names c i Hbf) as [(P & E1 & E2) | (P & _ & E)];
        [subst M hh; lia | left | right; auto].
      repeat split; auto. intros E. apply Hc. now rewrite <- E. }
    unfold fila_de_par.
    destruct (Hslot p bye Hp Hb) as [(Pa & Ea & Na) | (Pa & Ea)];
      destruct (Hslot p bye' Hp Hb') as [(Pa' & Ea' & Na') | (Pa' & Ea')]; try lia;
      destruct (Hslot q bye Hq Hb) as [(Pb & Eb & Nb) | (Pb & Eb)];
      destruct (Hslot q bye' Hq Hb') as [(Pb' & Eb' & Nb') | (Pb' & Eb')]; try lia;
      rewrite Ea, Ea', Eb, Eb';
      repeat match goal with
        | |- context [(?a =? ?b)%string] => destruct (String.eqb_spec a b); try contradiction
        end; try reflexivity; congruence. }
  unfold fixture. fold hh. destruct dr; cbn [salida]; now rewrite Hpv.
Qed.

(** C10. For an odd [n] and any resting label, a row either is a match with
    an empty note between two real participants, or has the note
    ["DESCANSA"], an empty away field and a real participant at home; every
    round has such a rest row; and the rows are the same for any two
    resting labels that are not labels of participants. *)
Theorem nota_de_descanso h n names (dr : bool) bal bye :
  bien_formada h n names -> n mod 2 = 1 ->
  exists filas,
    devuelve h n names dr bal bye filas /\
    (forall f, In f filas ->
       (nota f = "" /\ In (local f) (etiquetas h n names) /\
        In (visita f) (etiquetas h n names)) \/
       (nota f = "DESCANSA" /\ visita f = "" /\ In (local f) (etiquetas h n names))) /\
    (forall r, 1 <= r <= (if dr then 2 * rondas_de n else rondas_de n) ->
       exists f, In f filas /\ ronda f = r /\ nota f = "DESCANSA") /\
    (forall bye', ~ In bye (etiquetas h n names) -> ~ In bye' (etiquetas h n names) ->
       devuelve h n names dr bal bye' filas).
Proof.
  intros Hbf Himpar.
  assert (Himp : impar n = true) by (unfold impar; rewrite Himpar; reflexivity).
  exists (fixture h n names dr bal bye). repeat split.
  - now apply devuelve_fixture.
  - intros f Hf. now apply (descanso_de_participante h n names dr bal bye).
  - intros r Hr. now apply hay_descanso.
  - intros bye' Hb Hb'. rewrite (fixture_sin_etiqueta h n names dr bal bye bye') by assumption.
    now apply devuelve_fixture.
Qed.

Lemma nota_de_descanso_testigo :
  exists filas,
    devuelve [["a"; "b"; "c"]] 3 (Some 0%nat) true true "LIBRE" filas /\
    (forall f, In f filas ->
       (nota f = "" /\ In (local f) ["a"; "b"; "c"] /\ In (visita f) ["a"; "b"; "c"]) \/
       (nota f = "DESCANSA" /\ visita f = "" /\ In (local f) ["a"; "b"; "c"])) /\
    (forall r, 1 <= r <= 2 * rondas_de 3 ->
       exists f, In f filas /\ ronda f = r /\ nota f = "DESCANSA") /\
    (forall bye', ~ In "LIBRE" ["a"; "b"; "c"] -> ~ In bye' ["a"; "b"; "c"] ->
       devuelve [["a"; "b"; "c"]] 3 (Some 0%nat) true true bye' filas).
Proof.
  apply (nota_de_descanso [["a"; "b"; "c"]] 3 (Some 0%nat) true true "LIBRE").
  - split; [lia | reflexivity].
  - reflexivity.
Defined.

(** ** Concrete runs *)

Example generar_4 :
  fst (generar_fixture 4 None false true BYE_LABEL []) =
  Ok [Fila 1 1 "E1" "E4" ""; Fila 1 2 "E2" "E3" "";
      Fila 2 1 "E3" "E1" ""; Fila 2 2 "E2" "E4" "";
      Fila 3 1 "E1" "E2" ""; Fila 3 2 "E3" "E4" ""].
Proof. reflexivity. Qed.

Example generar_3_ida_y_vuelta :
  generar_fixture 3 (Some 0%nat) true true "LIBRE" [["a"; "b"; "c"]] =
  (Ok [Fila 1 1 "a" "" "DESCANSA"; Fila 1 2 "b" "c" "";
       Fila 2 1 "c" "a" ""; Fila 2 2 "b" "" "DESCANSA";
       Fila 3 1 "a" "b" ""; Fila 3 2 "c" "" "DESCANSA";
       Fila 4 1 "a" "" "DESCANSA"; Fila 4 2 "c" "b" "";
       Fila 5 1 "a" "c" ""; Fila 5 2 "b" "" "DESCANSA";
       Fila 6 1 "b" "a" ""; Fila 6 2 "c" "" "DESCANSA"],
   [["a"; "b"; "c"]; ["a"; "b"; "c"; "LIBRE"]]).
Proof. reflexivity. Qed.

Example generar_1 :
  fst (generar_fixture 1 None false true BYE_LABEL []) =
  Raise (ValueError "Se requieren al menos 2 equipos.").
Proof. reflexivity. Qed.

Example generar_4_con_2_nombres :
  fst (generar_fixture 4 (Some 0%nat) false true BYE_LABEL [["A"; "B"]]) =
  Raise (ValueError "Si usas nombres personalizados, deben ser exactamente n.").
Proof. reflexivity. Qed.

(** * More properties of the code *)

(** ** The summary under the table *)

Lemma resumen_rondas n (dr : bool) :
  total_rondas n dr = if dr then 2 * rondas_de n else rondas_de n.
Proof.
  unfold total_rondas, rondas_de, impar.
  destruct (Z.eqb_spec (n mod 2) 0), (Z.eqb_spec (n mod 2) 1), dr;
    try lia; Z.div_mod_to_equations; lia.
Qed.

Lemma resumen_partidos n : partidos_por_ronda n = mitad_de n.
Proof.
  unfold partidos_por_ronda, mitad_de, impar.
  destruct (Z.eqb_spec (n mod 2) 0), (Z.eqb_spec (n mod 2) 1);
    try reflexivity; Z.div_mod_to_equations; lia.
Qed.

(** X1. The two numbers that the page shows under the table are those of
    the fixture it has generated: the rows have exactly the rounds 1 to
    [total_rondas] and, in each, the tables 1 to [partidos_por_ronda], so
    there are [total_rondas * partidos_por_ronda] rows. A rest row counts
    as one of the "partidos" of its round. *)
Theorem resumen_de_la_pagina h n names dr bal bye :
  bien_formada h n names ->
  exists filas,
    devuelve h n names dr bal bye filas /\
    map clave filas = claves_esperadas (total_rondas n dr) (partidos_por_ronda n) /\
    len filas = total_rondas n dr * partidos_por_ronda n.
Proof.
  intros Hbf. pose proof Hbf as [Hn _].
  pose proof (mitad_rondas n Hn) as (H1 & H2 & H3).
  assert (Hk : map clave (fixture h n names dr bal bye) =
               claves_esperadas (total_rondas n dr) (partidos_por_ronda n)).
  { rewrite resumen_rondas, resumen_partidos. now apply claves_fixture. }
  exists (fixture h n names dr bal bye). repeat split.
  - now apply devuelve_fixture.
  - exact Hk.
  - apply total_de_filas; auto.
    + rewrite resumen_rondas. destruct dr; lia.
    + rewrite resumen_partidos. lia.
Qed.

Lemma resumen_de_la_pagina_testigo :
  exists filas,
    devuelve [] 7 None true true BYE_LABEL filas /\
    map clave filas = claves_esperadas (total_rondas 7 true) (partidos_por_ronda 7) /\
    len filas = total_rondas 7 true * partidos_por_ronda 7.
Proof.
  apply (resumen_de_la_pagina [] 7 None true true BYE_LABEL). split; [lia | exact I].
Defined.

(** ** The fixed participant *)

Lemma sigma_cero M k j : (j <= M)%nat -> (k < M)%nat -> (sigma M k j = 0%nat <-> j = 0%nat).
Proof. intros. casos_sigma; lia. Qed.

Lemma primero_en_equipos h n names bye :
  bien_formada h n names ->
  nth 0 (equipos_de h n names bye) "" = primero h n names.
Proof.
  intros Hbf. pose proof (length_etiquetas h n names Hbf) as Hl.
  destruct Hbf as [Hn _]. unfold equipos_de, primero.
  apply app_nth1. lia.
Qed.

(** The rows in which the first participant takes part are those of table 1. *)
Lemma primero_en_fila h n names bal bye k t :
  entrada_valida h n names bye ->
  (k < 2 * Z.to_nat (mitad_de n) - 1)%nat -> (t < Z.to_nat (mitad_de n))%nat ->
  (participa (primero h n names)
     (fila_en (equipos_de h n names bye) (Z.to_nat (mitad_de n)) bal bye k t) = true
   <-> t = 0%nat).
Proof.
  intros Hv Hk Ht. pose proof Hv as [Hbf _]. pose proof Hbf as [Hn _].
  pose proof (calendario_valido h n names bye Hv) as Hc. cbv zeta in Hc.
  destruct Hc as (Hh & He & Hnd & Hnr & Hslot & Hnreq & Hidx).
  rewrite <- (primero_en_equipos h n names bye Hbf).
  rewrite (participa_fila _ _ bal bye (Z.to_nat n) Hh He Hnd Hnr Hslot) by lia.
  rewrite !sigma_cero by lia. lia.
Qed.

(** X2. The rotation keeps the first participant at table 1: in every
    round, of either leg, the row of table 1 is the one in which the
    first participant plays or rests, and no other row is. *)
Theorem primero_en_mesa_1 h n names dr bal bye :
  entrada_valida h n names bye ->
  exists filas,
    devuelve h n names dr bal bye filas /\
    forall f, In f filas -> (participa (primero h n names) f = true <-> mesa f = 1).
Proof.
  intros Hv. pose proof Hv as [Hbf _]. pose proof Hbf as [Hn _].
  pose proof (mitad_rondas n Hn) as (H1 & H2 & H3).
  pose proof (length_equipos_de h n names bye Hbf) as Hl.
  assert (Hh : (1 <= Z.to_nat (mitad_de n))%nat) by lia.
  exists (fixture h n names dr bal bye). split; [now apply devuelve_fixture|].
  assert (Hida : forall g, In g (primera_vuelta (equipos_de h n names bye)
                                  (Z.to_nat (mitad_de n)) bal bye) ->
                           (participa (primero h n names) g = true <-> mesa g = 1)).
  { intros g Hg. apply (en_primera_vuelta _ _ bal bye Hh Hl) in Hg as (k & t & Hk & Ht & ->).
    rewrite (primero_en_fila h n names bal bye k t Hv Hk Ht), mesa_fila_en. lia. }
  intros f Hf. apply (en_salida _ _ bal bye) in Hf as [Hf | (_ & g & Hg & ->)].
  - now apply Hida.
  - rewrite participa_fila_vuelta, mesa_fila_vuelta. now apply Hida.
Qed.

Lemma primero_en_mesa_1_testigo :
  exists filas,
    devuelve [] 6 None true true BYE_LABEL filas /\
    forall f, In f filas -> (participa (primero [] 6 None) f = true <-> mesa f = 1).
Proof.
  apply (primero_en_mesa_1 [] 6 None true true BYE_LABEL).
  apply entrada_por_defecto. lia.
Defined.

(** X3. In a single round-robin the first participant is at home in every
    match it plays when the sides are not balanced; with balancing it is
    at home in its matches of odd rounds and away in those of even rounds. *)
Theorem primero_de_local h n names bal bye :
  entrada_valida h n names bye ->
  exists filas,
    devuelve h n names false bal bye filas /\
    forall f, In f filas -> es_descanso f = false ->
      participa (primero h n names) f = true ->
      if bal && Z.even (ronda f)
      then visita f = primero h n names /\ local f <> primero h n names
      else local f = primero h n names /\ visita f <> primero h n names.
Proof.
  intros Hv. pose proof Hv as [Hbf _]. pose proof Hbf as [Hn _].
  pose proof (calendario_valido h n names bye Hv) as Hc. cbv zeta in Hc.
  destruct Hc as (Hh & He & Hnd & Hnr & Hslot & Hnreq & Hidx).
  exists (fixture h n names false bal bye). split; [now apply devuelve_fixture|].
  intros f Hf Hnd' Hp. unfold fixture in Hf. cbn [salida] in Hf.
  apply (en_primera_vuelta _ _ bal bye Hh He) in Hf as (k & t & Hk & Ht & ->).
  apply (primero_en_fila h n names bal bye k t Hv Hk Ht) in Hp. subst t.
  set (M := (2 * Z.to_nat (mitad_de n) - 1)%nat) in *.
  assert (Hq : (sigma M k (M - 0) <= M)%nat) by (apply sigma_cota; subst M; lia).
  assert (Hq0 : sigma M k (M - 0) <> 0%nat).
  { intros E. apply sigma_cero in E; subst M; lia. }
  assert (Hab : nth (sigma M k (M - 0)) (equipos_de h n names bye) "" <> primero h n names).
  { rewrite <- (primero_en_equipos h n names bye Hbf). intros E.
    apply (nth_iny _ _ (Z.to_nat n) Hh He Hnd Hnr) in E; fold M; try lia. }
  rewrite ronda_fila_en. revert Hnd'. unfold fila_en. fold M.
  replace (sigma M k 0) with 0%nat by (symmetry; apply sigma_cero; subst M; lia).
  rewrite (primero_en_equipos h n names bye Hbf).
  destruct (fila_de_par_casos (Z.of_nat k + 1) 1 bal bye (primero h n names)
              (nth (sigma M k (M - 0)) (equipos_de h n names bye) ""))
    as [[H E] | (Ha & Hb & E)]; change (Z.of_nat 0 + 1) with 1; rewrite E.
  - unfold es_descanso. simpl. discriminate.
  - intros _. rewrite par_mod.
    destruct (bal && Z.even (Z.of_nat k + 1)); cbn [local visita]; split; auto.
Qed.

Lemma primero_de_local_testigo :
  exists filas,
    devuelve [] 6 None false false BYE_LABEL filas /\
    forall f, In f filas -> es_descanso f = false ->
      participa (primero [] 6 None) f = true ->
      local f = primero [] 6 None /\ visita f <> primero [] 6 None.
Proof.
  apply (primero_de_local [] 6 None false BYE_LABEL).
  apply entrada_por_defecto. lia.
Defined.

(** ** The first round *)

Lemma sigma_inicial M j : sigma M 0 j = j.
Proof. casos_sigma; lia. Qed.

(** X4. The first round follows the order of the list: table [j] seats the
    [j]-th participant at home against the [j]-th from the end, whatever
    the balancing; with an odd [n] the end of the list is the resting
    slot, so table 1 is the rest of the first participant. *)
Theorem primera_ronda h n names dr bal bye j :
  entrada_valida h n names bye ->
  1 <= j <= mitad_de n ->
  exists filas,
    devuelve h n names dr bal bye filas /\
    In (if impar n && (j =? 1)
        then Fila 1 1 (primero h n names) "" "DESCANSA"
        else Fila 1 j (nth (Z.to_nat (j - 1)) (etiquetas h n names) "")
                      (nth (Z.to_nat (2 * mitad_de n - j)) (etiquetas h n names) "") "")
       filas.
Proof.
  intros Hv Hj. pose proof Hv as [Hbf [_ Hbye]]. pose proof Hbf as [Hn _].
  pose proof (mitad_rondas n Hn) as (H1 & H2 & H3).
  pose proof (calendario_valido h n names bye Hv) as Hc. cbv zeta in Hc.
  destruct Hc as (Hh & He & Hnd & Hnr & Hslot & Hnreq & Hidx).
  pose proof (length_etiquetas h n names Hbf) as Hl.
  exists (fixture h n names dr bal bye). split; [now apply devuelve_fixture|].
  apply en_salida. left. apply en_primera_vuelta; auto.
  set (hh := Z.to_nat (mitad_de n)) in *.
  exists 0%nat, (Z.to_nat (j - 1)). split; [lia|]. split; [lia|].
  unfold fila_en. rewrite !sigma_inicial.
  replace (Z.of_nat (Z.to_nat (j - 1)) + 1) with j by lia.
  change (Z.of_nat 0 + 1) with 1.
  set (t := Z.to_nat (j - 1)).
  assert (Ea : nth t (equipos_de h n names bye) "" = nth t (etiquetas h n names) "").
  { unfold equipos_de. apply app_nth1. destruct (impar n); lia. }
  assert (Ha : nth t (etiquetas h n names) "" <> bye).
  { intros E. apply Hbye. rewrite <- E. apply nth_In. destruct (impar n); lia. }
  rewrite Ea. unfold fila_de_par.
  destruct (String.eqb_spec (nth t (etiquetas h n names) "") bye) as [|_]; [contradiction|].
  cbn [orb].
  destruct (impar n) eqn:Himp; cbn [andb].
  - destruct (Z.eqb_spec j 1) as [-> | Hj1].
    + replace (2 * hh - 1 - t)%nat with (Z.to_nat n) by lia.
      assert (Eb : nth (Z.to_nat n) (equipos_de h n names bye) "" = bye)
        by (apply Hslot; lia).
      rewrite Eb, String.eqb_refl. unfold primero. reflexivity.
    + replace (Z.to_nat (2 * mitad_de n - j)) with (2 * hh - 1 - t)%nat by lia.
      assert (Eb : nth (2 * hh - 1 - t) (equipos_de h n names bye) "" =
                   nth (2 * hh - 1 - t) (etiquetas h n names) "").
      { unfold equipos_de. apply app_nth1. lia. }
      assert (Hb : nth (2 * hh - 1 - t) (etiquetas h n names) "" <> bye).
      { intros E. apply Hbye. rewrite <- E. apply nth_In. lia. }
      rewrite Eb.
      destruct (String.eqb_spec (nth (2 * hh - 1 - t) (etiquetas h n names) "") bye)
        as [|_]; [contradiction|].
      now rewrite andb_false_r.
  - replace (Z.to_nat (2 * mitad_de n - j)) with (2 * hh - 1 - t)%nat by lia.
    assert (Eb : nth (2 * hh - 1 - t) (equipos_de h n names bye) "" =
                 nth (2 * hh - 1 - t) (etiquetas h n names) "").
    { unfold equipos_de. apply app_nth1. lia. }
    assert (Hb : nth (2 * hh - 1 - t) (etiquetas h n names) "" <> bye).
    { intros E. apply Hbye. rewrite <- E. apply nth_In. lia. }
    rewrite Eb.
    destruct (String.eqb_spec (nth (2 * hh - 1 - t) (etiquetas h n names) "") bye)
      as [|_]; [contradiction|].
    now rewrite andb_false_r.
Qed.

Lemma primera_ronda_testigo :
  exists filas,
    devuelve [["a"; "b"; "c"; "d"; "e"]] 5 (Some 0%nat) false true "LIBRE" filas /\
    In (Fila 1 2 "b" "e" "") filas.
Proof.
  apply (primera_ronda [["a"; "b"; "c"; "d"; "e"]] 5 (Some 0%nat) false true "LIBRE" 2).
  - split; [split; [lia | reflexivity]|]. split.
    + repeat constructor; simpl; intuition discriminate.
    + simpl. intuition discriminate.
  - vm_compute. split; discriminate.
Defined.

(** ** A participant named like the resting label *)



(** X6. A list of an even number of names whose last one is the resting
    label gives the rows of the list without it: the participant named
    like the resting label is taken for the resting slot. *)
Theorem ultimo_como_descanso h n p q l dr bal bye :
  nth p h [] = l ++ [bye] ->
  nth q h [] = l ->
  len l = n - 1 -> 4 <= n -> n mod 2 = 0 ->
  exists filas,
    devuelve h n (Some p) dr bal bye filas /\
    devuelve h (n - 1) (Some q) dr bal bye filas.
Proof.
  intros Hp Hq Hl Hn Hpar.
  assert (Hbf1 : bien_formada h n (Some p)).
  { split; [lia|]. rewrite Hp. unfold len in *. rewrite length_app. simpl. lia. }
  assert (Hbf2 : bien_formada h (n - 1) (Some q)).
  { split; [lia|]. now rewrite Hq. }
  assert (Hi1 : impar n = false) by (unfold impar; now rewrite Hpar).
  assert (Hi2 : impar (n - 1) = true).
  { unfold impar. apply Z.eqb_eq. Z.div_mod_to_equations. lia. }
  exists (fixture h n (Some p) dr bal bye). split; [now apply devuelve_fixture|].
  assert (E : fixture h n (Some p) dr bal bye = fixture h (n - 1) (Some q) dr bal bye).
  { unfold fixture, equipos_de, etiquetas, mitad_de.
    rewrite Hi1, Hi2, Hp, Hq, app_nil_r.
    replace (n - 1 + 1) with n by lia. reflexivity. }
  rewrite E. now apply devuelve_fixture.
Qed.

Lemma ultimo_como_descanso_testigo :
  exists filas,
    devuelve [["a"; "b"; "c"; "LIBRE"]; ["a"; "b"; "c"]] 4 (Some 0%nat) true true "LIBRE" filas /\
    devuelve [["a"; "b"; "c"; "LIBRE"]; ["a"; "b"; "c"]] (4 - 1) (Some 1%nat) true true "LIBRE" filas.
Proof.
  apply (ultimo_como_descanso [["a"; "b"; "c"; "LIBRE"]; ["a"; "b"; "c"]] 4 0%nat 1%nat
           ["a"; "b"; "c"] true true "LIBRE"); try reflexivity; lia.
Defined.

(** ** The final sort *)

(** X7. The loops already build the rows in the order of the sort key, so
    the final sort returns the list as it receives it: the rows returned
    are those appended by the first leg, followed when asked by those of
    the return leg. *)
Theorem orden_de_construccion h n names (dr : bool) bal bye :
  bien_formada h n names ->
  exists ida_ todas,
    ida (range 1 (rondas_de n + 1)) (mitad_de n) bal bye (equipos_de h n names bye) [] = Ok ida_ /\
    todas = (if dr then ida_ ++ vuelta (rondas_de n) ida_ else ida_) /\
    ordenar todas = todas /\
    devuelve h n names dr bal bye todas.
Proof.
  intros Hbf. pose proof Hbf as [Hn _].
  pose proof (mitad_rondas n Hn) as (H1 & H2 & H3).
  pose proof (length_equipos_de h n names bye Hbf) as Hl.
  assert (Hh : (1 <= Z.to_nat (mitad_de n))%nat) by lia.
  assert (HR : Z.of_nat (2 * Z.to_nat (mitad_de n) - 1) = rondas_de n) by lia.
  exists (primera_vuelta (equipos_de h n names bye) (Z.to_nat (mitad_de n)) bal bye),
         (fixture h n names dr bal bye).
  repeat split.
  - rewrite <- HR. rewrite <- (Z2Nat.id (mitad_de n)) at 2 by lia.
    now apply ida_primera_vuelta.
  - unfold fixture, salida. now rewrite HR.
  - apply ordenar_ordenada. apply salida_ordenada; assumption.
  - now apply devuelve_fixture.
Qed.

Lemma orden_de_construccion_testigo :
  exists ida_ todas,
    ida (range 1 (rondas_de 5 + 1)) (mitad_de 5) true BYE_LABEL
        (equipos_de [] 5 None BYE_LABEL) [] = Ok ida_ /\
    todas = ida_ ++ vuelta (rondas_de 5) ida_ /\
    ordenar todas = todas /\
    devuelve [] 5 None true true BYE_LABEL todas.
Proof.
  apply (orden_de_construccion [] 5 None true true BYE_LABEL). split; [lia | exact I].
Defined.

(** ** Matches of each participant *)

(** Counting over the rounds 1 to [R] when each round counts the same. *)
Lemma cuenta_rondas_iguales (P : fila -> bool) (l : list fila) (c R : nat) :
  (forall f, In f l -> 1 <= ronda f) ->
  (forall k, (k < R)%nat -> cuenta (fun f => en_ronda (Z.of_nat k + 1) f && P f) l = c) ->
  cuenta (fun f => (ronda f <=? Z.of_nat R) && P f) l = (R * c)%nat.
Proof.
  intros Hpos. induction R as [|R IH]; intros Hc.
  - apply cuenta_cero. intros f Hf. apply Hpos in Hf.
    destruct (Z.leb_spec (ronda f) (Z.of_nat 0)); [lia | reflexivity].
  - rewrite (cuenta_ext_in _
               (fun f => ((ronda f <=? Z.of_nat R) && P f)
                         || (en_ronda (Z.of_nat R + 1) f && P f)) l).
    + rewrite cuenta_disyuncion.
      * rewrite IH by (intros k Hk; apply Hc; lia). rewrite (Hc R) by lia. lia.
      * intros f _ H. apply andb_true_iff in H as [H _]. apply Z.leb_le in H.
        unfold en_ronda. destruct (Z.eqb_spec (ronda f) (Z.of_nat R + 1)); [lia | reflexivity].
    + intros f _. unfold en_ronda.
      destruct (Z.leb_spec (ronda f) (Z.of_nat (S R))),
               (Z.leb_spec (ronda f) (Z.of_nat R)),
               (Z.eqb_spec (ronda f) (Z.of_nat R + 1)); try lia;
        destruct (P f); reflexivity.
Qed.

Lemma local_o_visita x f :
  negb (es_descanso f) && participa x f = es_local x f || es_visita x f.
Proof.
  unfold participa, es_local, es_visita.
  destruct (es_descanso f), (local f =? x)%string, (visita f =? x)%string; reflexivity.
Qed.

Lemma descanso_o_partido x f :
  participa x f =
  (es_descanso f && (local f =? x)%string) || (negb (es_descanso f) && participa x f).
Proof.
  unfold participa.
  destruct (es_descanso f), (local f =? x)%string, (visita f =? x)%string; reflexivity.
Qed.

Lemma es_local_fila_vuelta R x f : es_local x (fila_vuelta R f) = es_visita x f.
Proof.
  unfold es_local, es_visita. rewrite es_descanso_fila_vuelta.
  unfold es_descanso, fila_vuelta.
  destruct (nota f =? "DESCANSA")%string eqn:E; reflexivity.
Qed.

Lemma es_visita_fila_vuelta R x f : es_visita x (fila_vuelta R f) = es_local x f.
Proof.
  unfold es_local, es_visita. rewrite es_descanso_fila_vuelta.
  unfold es_descanso, fila_vuelta.
  destruct (nota f =? "DESCANSA")%string eqn:E; reflexivity.
Qed.

(** The matches of a participant in the first leg: one per round, less its
    rest when there is one. *)
Lemma partidos_en_la_ida h n names bal bye x :
  entrada_valida h n names bye ->
  In x (etiquetas h n names) ->
  cuenta (fun f => negb (es_descanso f) && participa x f)
         (primera_vuelta (equipos_de h n names bye) (Z.to_nat (mitad_de n)) bal bye)
  = Z.to_nat (n - 1) /\
  (forall f, In f (primera_vuelta (equipos_de h n names bye) (Z.to_nat (mitad_de n)) bal bye) ->
             es_local x f = true -> es_visita x f = false).
Proof.
  intros Hv Hx. pose proof Hv as [Hbf _]. pose proof Hbf as [Hn _].
  pose proof (mitad_rondas n Hn) as (H1 & H2 & H3).
  pose proof (calendario_valido h n names bye Hv) as Hc. cbv zeta in Hc.
  destruct Hc as (Hh & He & Hnd & Hnr & Hslot & Hnreq & Hidx).
  destruct (Hidx x Hx) as (i & Hi & HiM & ->).
  set (e := equipos_de h n names bye) in *. set (hh := Z.to_nat (mitad_de n)) in *.
  set (pv := primera_vuelta e hh bal bye).
  assert (Hron : forall f, In f pv -> 1 <= ronda f <= Z.of_nat (2 * hh - 1)).
  { intros f Hf. apply (en_primera_vuelta _ _ bal bye Hh He) in Hf as (k & t & Hk & Ht & ->).
    rewrite ronda_fila_en. lia. }
  assert (Htot : cuenta (participa (nth i e "")) pv = (2 * hh - 1)%nat).
  { rewrite (cuenta_ext_in _ (fun f => (ronda f <=? Z.of_nat (2 * hh - 1))
                                       && participa (nth i e "") f) pv).
    - rewrite (cuenta_rondas_iguales _ pv 1).
      + lia.
      + intros f Hf. apply Hron in Hf. lia.
      + intros k Hk. apply (participa_una_vez _ _ bal bye (Z.to_nat n)); auto.
    - intros f Hf. apply Hron in Hf.
      destruct (Z.leb_spec (ronda f) (Z.of_nat (2 * hh - 1))); [reflexivity | lia]. }
  assert (Hrest : cuenta (fun f => es_descanso f && (local f =? nth i e "")%string) pv =
                  if impar n then 1%nat else 0%nat).
  { destruct (impar n).
    - apply (descansa_una_vez _ _ bal bye (Z.to_nat n)); auto.
    - apply cuenta_cero. intros f Hf.
      rewrite (sin_descanso _ _ bal bye (Z.to_nat n) Hh He Hnr Hslot f); auto. lia. }
  split.
  - rewrite (cuenta_ext_in _ _ pv (fun f _ => descanso_o_partido (nth i e "") f)) in Htot.
    rewrite cuenta_disyuncion in Htot.
    + rewrite Hrest in Htot. destruct (impar n); lia.
    + intros f _ H. apply andb_true_iff in H as [H _]. now rewrite H.
  - intros f Hf Hloc. apply (en_primera_vuelta _ _ bal bye Hh He) in Hf as (k & t & Hk & Ht & ->).
    destruct (cotas _ _ (Z.to_nat n) Hh He Hnr k t Hk Ht) as (Hp & Hq & Hpq).
    assert (Hab : nth (sigma (2 * hh - 1) k t) e "" <>
                  nth (sigma (2 * hh - 1) k (2 * hh - 1 - t)) e "").
    { intros E. apply Hpq. apply (nth_iny _ _ (Z.to_nat n) Hh He Hnd Hnr); auto. }
    revert Hloc. unfold es_local, es_visita.
    destruct (fila_casos _ _ bal bye (Z.to_nat n) Hh He Hnr Hslot k t Hk Ht)
      as [(_ & _ & E) | [(_ & _ & E) | (_ & _ & [E | E])]]; rewrite E;
      unfold es_descanso; cbn [nota local visita]; simpl negb; cbn [andb];
      try discriminate; intros Hloc; apply String.eqb_eq in Hloc;
      apply String.eqb_neq; congruence.
Qed.

(** X8. In a single round-robin every participant plays exactly [n - 1]
    matches, rests not counted. *)
Theorem partidos_por_participante h n names bal bye x :
  entrada_valida h n names bye ->
  In x (etiquetas h n names) ->
  exists filas,
    devuelve h n names false bal bye filas /\
    cuenta (fun f => negb (es_descanso f) && participa x f) filas = Z.to_nat (n - 1).
Proof.
  intros Hv Hx. pose proof Hv as [Hbf _].
  exists (fixture h n names false bal bye). split; [now apply devuelve_fixture|].
  unfold fixture. cbn [salida]. now apply partidos_en_la_ida.
Qed.

Lemma partidos_por_participante_testigo :
  exists filas,
    devuelve [] 5 None false true BYE_LABEL filas /\
    cuenta (fun f => negb (es_descanso f) && participa "E3" f) filas = Z.to_nat (5 - 1).
Proof.
  apply (partidos_por_participante [] 5 None true BYE_LABEL "E3").
  - apply entrada_por_defecto. lia.
  - vm_compute. auto.
Defined.

(** X9. In a double round-robin every participant is at home in exactly
    [n - 1] matches and away in exactly [n - 1] matches, with or without
    balancing. *)
Theorem local_y_visita_parejos h n names bal bye x :
  entrada_valida h n names bye ->
  In x (etiquetas h n names) ->
  exists filas,
    devuelve h n names true bal bye filas /\
    cuenta (es_local x) filas = Z.to_nat (n - 1) /\
    cuenta (es_visita x) filas = Z.to_nat (n - 1).
Proof.
  intros Hv Hx. pose proof Hv as [Hbf _].
  destruct (partidos_en_la_ida h n names bal bye x Hv Hx) as [Hn Hdis].
  exists (fixture h n names true bal bye). split; [now apply devuelve_fixture|].
  unfold fixture. cbn [salida]. unfold vuelta.
  rewrite !cuenta_app, !cuenta_map.
  rewrite (cuenta_ext_in (fun f => es_local x (fila_vuelta _ f)) (es_visita x))
    by (intros; apply es_local_fila_vuelta).
  rewrite (cuenta_ext_in (fun f => es_visita x (fila_vuelta _ f)) (es_local x))
    by (intros; apply es_visita_fila_vuelta).
  rewrite (cuenta_ext_in _ _ _ (fun f _ => local_o_visita x f)) in Hn.
  rewrite cuenta_disyuncion in Hn by exact Hdis.
  lia.
Qed.

Lemma local_y_visita_parejos_testigo :
  exists filas,
    devuelve [] 5 None true true BYE_LABEL filas /\
    cuenta (es_local "E3") filas = Z.to_nat (5 - 1) /\
    cuenta (es_visita "E3") filas = Z.to_nat (5 - 1).
Proof.
  apply (local_y_visita_parejos [] 5 None true BYE_LABEL "E3").
  - apply entrada_por_defecto. lia.
  - vm_compute. auto.
Defined.

(** ** The comma-separated export *)

Lemma append_asoc (a b c : string) : ((a ++ b) ++ c = a ++ (b ++ c))%string.
Proof. induction a as [|x a IH]; simpl; [reflexivity|]. now rewrite IH. Qed.

Lemma append_vacia (a : string) : (a ++ "")%string = a.
Proof. induction a as [|x a IH]; simpl; [reflexivity|]. now rewrite IH. Qed.








Lemma escribir_filas_dicts (l : list fila) (buf : string) :
  escribir_filas (filas_a_dicts l) buf = Hecho (buf ++ lineas_csv l)%string.
Proof.
  revert buf. induction l as [|f l IH]; intros buf.
  - simpl. now rewrite append_vacia.
  - cbn [filas_a_dicts map escribir_filas].
    change (item _ "Ronda") with (Hecho (VInt (ronda f))).
    change (item _ "Mesa") with (Hecho (VInt (mesa f))).
    change (item _ "Local") with (Hecho (VStr (local f))).
    change (item _ "Visita") with (Hecho (VStr (visita f))).
    change (item _ "Nota") with (Hecho (VStr (nota f))).
    cbn [ibind texto]. fold (filas_a_dicts l). rewrite IH.
    fold (linea_csv f). now rewrite append_asoc.
Qed.

Lemma csv_de_filas (l : list fila) :
  dicts_a_csv_bytes (filas_a_dicts l) =
  Hecho (BOM ++ writerow ["Ronda"; "Mesa"; "Local"; "Visita"; "Nota"] ++ lineas_csv l)%string.
Proof.
  unfold dicts_a_csv_bytes. rewrite escribir_filas_dicts. reflexivity.
Qed.


(** ** The printable document *)





Lemma digitos_sin_especial (d : Decimal.uint) :
  tiene_especial (NilEmpty.string_of_uint d) = false.
Proof. induction d; simpl; auto. Qed.

Lemma str_sin_especial (z : Z) : tiene_especial (str z) = false.
Proof.
  unfold str. destruct (Z.to_int z) as [d | d]; simpl.
  - unfold NilZero.string_of_uint. destruct d; try reflexivity;
      apply (digitos_sin_especial (_ d)).
  - unfold NilZero.string_of_uint. destruct d; try reflexivity;
      apply (digitos_sin_especial (_ d)).
Qed.

Lemma linea_csv_llana (f : fila) :
  tiene_especial (local f) = false ->
  tiene_especial (visita f) = false ->
  tiene_especial (nota f) = false ->
  linea_csv f = linea_llana f.
Proof.
  intros Ha Hb Hn. unfold linea_csv, linea_llana, writerow.
  assert (Hr : str (ronda f) <> EmptyString \/ True) by now right.
  destruct (str (ronda f)) eqn:E;
    cbn [map String.concat]; unfold csv_campo;
    rewrite ?E, ?str_sin_especial, ?Ha, ?Hb, ?Hn;
    try (rewrite <- E, str_sin_especial);
    rewrite ?append_asoc; reflexivity.
Qed.

Lemma nombres_por_defecto_sin_especial n x :
  In x (nombres_por_defecto n) -> tiene_especial x = false.
Proof.
  unfold nombres_por_defecto. rewrite in_map_iff. intros (i & <- & _).
  cbn [String.append tiene_especial]. apply str_sin_especial.
Qed.

(** X12. When no label holds a comma, a double quote or a line break, the
    export of a fixture quotes nothing: after the byte order mark and the
    header line come the rows' fields as they are, joined by commas, one
    line per row. The default names are such labels. *)
Theorem csv_sin_comillas h n names dr bal bye :
  bien_formada h n names ->
  (forall x, In x (etiquetas h n names) -> tiene_especial x = false) ->
  exists filas,
    devuelve h n names dr bal bye filas /\
    dicts_a_csv_bytes (filas_a_dicts filas) =
    Hecho (BOM ++ "Ronda,Mesa,Local,Visita,Nota" ++ CRLF
           ++ String.concat "" (map linea_llana filas))%string.
Proof.
  intros Hbf Hesp.
  exists (fixture h n names dr bal bye). split; [now apply devuelve_fixture|].
  rewrite csv_de_filas. do 2 f_equal.
  change (writerow ["Ronda"; "Mesa"; "Local"; "Visita"; "Nota"])
    with ("Ronda,Mesa,Local,Visita,Nota" ++ CRLF)%string.
  rewrite append_asoc. do 2 f_equal.
  assert (H : forall f, In f (fixture h n names dr bal bye) -> linea_csv f = linea_llana f).
  { intros f Hf.
    destruct (descanso_de_participante h n names dr bal bye f Hbf Hf)
      as [(E & E1 & E2) | (E & E1 & E2)]; apply linea_csv_llana; auto;
      rewrite ?E, ?E1; auto. }
  revert H. generalize (fixture h n names dr bal bye). intros l.
  induction l as [|f l IH]; intros H; [reflexivity|].
  cbn [lineas_csv map]. rewrite (H f (or_introl eq_refl)), IH by (intros; apply H; now right).
  destruct l; cbn [map String.concat]; [now rewrite append_vacia | reflexivity].
Qed.

Lemma csv_sin_comillas_testigo :
  exists filas,
    devuelve [] 5 None true true BYE_LABEL filas /\
    dicts_a_csv_bytes (filas_a_dicts filas) =
    Hecho (BOM ++ "Ronda,Mesa,Local,Visita,Nota" ++ CRLF
           ++ String.concat "" (map linea_llana filas))%string.
Proof.
  apply (csv_sin_comillas [] 5 None true true BYE_LABEL).
  - split; [lia | exact I].
  - intros x Hx. exact (nombres_por_defecto_sin_especial 5 x Hx).
Defined.

(** ** Rows with missing keys *)






